(** * The OIDC provider adapter of traefik-forward-auth

    A shallow embedding of [internal/provider/oidc.go] and the properties
    its specification states about it.

    The adapter is a thin layer over two libraries (go-oidc and oauth2).
    Their network and cryptographic operations are not re-implemented:
    they are the members of the class [Collaborators] below, and every
    theorem holds for every instance of that class.  What is modelled in
    full is what the adapter itself does: the validation in [Setup], the
    extraction of the identity token in [ExchangeCode], and the group
    flattening of [GetUser] with Go's [strings.Split], Go's map and the
    indeterminate iteration order of [range] over a map. *)

From Stdlib Require Import ZArith Ascii.
From stdpp Require Import base gmap sets list strings.

Local Open Scope Z_scope.
Local Open Scope nat_scope.

(* ================================================================== *)
(** * Go values *)

(** A Go [string] is a sequence of bytes: Rocq's [string]. *)

(** The dynamic values an [interface{}] holds in a decoded token
    response: JSON decoding yields nil, bool, float64, string, slices and
    maps; a form-encoded response yields int64, float64 and string. *)
#[local] Unset Elimination Schemes.
Inductive any : Type :=
| any_nil
| any_string (s : string)
| any_bool (b : bool)
| any_int64 (n : Z)
| any_float64 (bits : Z)
| any_slice (l : list any)
| any_map (m : list (string * any)).
#[local] Set Elimination Schemes.

(** The two-result type assertion [v.(string)]: the string and [true]
    when [v] holds a string, the zero value and [false] otherwise. *)
Definition assert_string (v : any) : string * bool :=
  match v with
  | any_string s => (s, true)
  | _ => ("", false)
  end.

(** Go's [error] values.  [errorString] is what [errors.New] builds; the
    other two stand for the errors the libraries return, which the adapter
    only passes on. *)
Inductive error : Type :=
| errorString (text : string)
| oidc_failure (detail : string)
| oauth2_failure (detail : string).

Module errors.
Definition New (text : string) : error := errorString text.
End errors.

(** [context.Context]; the adapter only ever builds the background one. *)
Inductive Context : Type := Background.

(** What a call into a library can do: return a value, return an error,
    or panic (a nil receiver that the library dereferences). *)
Inductive reply (A : Type) : Type :=
| Value (a : A)
| Failure (e : error)
| Crash.
Arguments Value {A} a.
Arguments Failure {A} e.
Arguments Crash {A}.

(* ------------------------------------------------------------------ *)
(** ** Package strings (imported as [str]) *)

Module str.

(** [strings.Split(s, sep)] for a separator [sep] of one byte, the only
    way the adapter calls it: the substrings of [s] between the
    occurrences of [sep], in order; [[s]] when [sep] does not occur
    (also for the empty [s]). *)
Fixpoint Split (s : string) (sep : ascii) : list string :=
  match s with
  | EmptyString => [EmptyString]
  | String c rest =>
      if Ascii.eqb c sep then EmptyString :: Split rest sep
      else match Split rest sep with
           | part :: parts => String c part :: parts
           | [] => [String c EmptyString]
           end
  end.

(** [strings.Join(elems, sep)], used to validate [Split]. *)
Fixpoint Join (elems : list string) (sep : ascii) : string :=
  match elems with
  | [] => EmptyString
  | [e] => e
  | e :: rest => e +:+ String sep (Join rest sep)
  end.

(** [strings.IndexByte(s, c) >= 0] *)
Fixpoint ContainsByte (s : string) (c : ascii) : bool :=
  match s with
  | EmptyString => false
  | String d rest => Ascii.eqb d c || ContainsByte rest c
  end.

(** [strings.Count(s, string(c))] *)
Fixpoint CountByte (s : string) (c : ascii) : nat :=
  match s with
  | EmptyString => 0
  | String d rest => (if Ascii.eqb d c then 1 else 0) + CountByte rest c
  end.

(** [strings.HasPrefix(s, prefix)] *)
Fixpoint HasPrefix (s prefix : string) : bool :=
  match prefix, s with
  | EmptyString, _ => true
  | String p prefix', String c s' => Ascii.eqb c p && HasPrefix s' prefix'
  | String _ _, EmptyString => false
  end.

(** [strings.Contains(s, substr)] *)
Fixpoint Contains (s substr : string) : bool :=
  HasPrefix s substr ||
  match s with
  | EmptyString => false
  | String _ s' => Contains s' substr
  end.

End str.

(* ------------------------------------------------------------------ *)
(** ** Package log *)

Module log.

(** The flag bits of package log. *)
Definition Ldate : Z := Z.shiftl 1 0.
Definition Ltime : Z := Z.shiftl 1 1.
Definition Lmsgprefix : Z := Z.shiftl 1 6.

(** Where a logger writes: [io.Discard] or [os.Stdout]. *)
Inductive Writer : Type := Discard | Stdout.

Record Logger : Type := {
  prefix : string;
  flag : Z;
  out : Writer
}.

(** [log.New(out, prefix, flag)] *)
Definition New (w : Writer) (pre : string) (flg : Z) : Logger :=
  {| prefix := pre; flag := flg; out := w |}.

(** [l.SetOutput(w)] *)
Definition SetOutput (l : Logger) (w : Writer) : Logger :=
  {| prefix := prefix l; flag := flag l; out := w |}.

End log.

(* ------------------------------------------------------------------ *)
(** ** Package oauth2 *)

Module oauth2.

Record Endpoint : Type := {
  AuthURL : string;
  TokenURL : string
}.

Record Config : Type := {
  ClientID : string;
  ClientSecret : string;
  Endpoint_ : Endpoint;
  RedirectURL : string;
  Scopes : list string
}.

(** A token response.  [Extra] is its lookup of a named extension
    field, [token.Extra(key)]; a field the response lacks is [any_nil]
    in a JSON response. *)
Record Token : Type := {
  AccessToken : string;
  TokenType : string;
  RefreshToken : string;
  Extra : string → any
}.

End oauth2.

(* ------------------------------------------------------------------ *)
(** ** Package oidc (github.com/coreos/go-oidc) *)

Module oidc.

Definition ScopeOpenID : string := "openid".

(** The discovered issuer: its metadata document. *)
Record Provider : Type := {
  issuer : string;
  authURL : string;
  tokenURL : string;
  jwksURL : string
}.

(** [p.Endpoint()] *)
Definition Endpoint (p : Provider) : oauth2.Endpoint :=
  {| oauth2.AuthURL := authURL p; oauth2.TokenURL := tokenURL p |}.

Record Config : Type := {
  ClientID : string
}.

Record IDTokenVerifier : Type := {
  keySet : string;
  config : Config;
  expectedIssuer : string
}.

(** [p.Verifier(config)] *)
Definition Verifier (p : Provider) (c : Config) : IDTokenVerifier :=
  {| keySet := jwksURL p; config := c; expectedIssuer := issuer p |}.

(** A verified identity token; [claims] is its raw JSON payload. *)
Record IDToken : Type := {
  Issuer : string;
  Audience : list string;
  Subject : string;
  claims : string
}.

End oidc.

(* ================================================================== *)
(** * The adapter's data *)

(** The structure [GetUser] decodes the claims into:
    [struct { Email string `json:"email"`; Groups []string `json:"groups"` }].
    A claim the token lacks leaves the zero value: [""], and the nil
    slice, which is the empty list here. *)
Record userClaims : Type := {
  Email : string;
  Groups : list string
}.

(** [provider.User], the adapter's result.  Its declaration is in another
    file of the package; the two fields are those [GetUser] fills in. *)
Record User : Type := {
  User_User : string;
  User_Groups : list string
}.

(** [OAuthProvider], the structure [OIDC] embeds.  Its declaration is in
    another file of the package; the two fields are those [Setup] assigns,
    both nil until then. *)
Record OAuthProvider : Type := {
  Config : option oauth2.Config;
  ctx : option Context
}.

(** The [OIDC] structure.  A pointer field is an [option], nil being
    [None]. *)
Record OIDC : Type := {
  IssuerURL : string;
  ClientID : string;
  ClientSecret : string;
  OAuthProvider_ : OAuthProvider;
  provider : option oidc.Provider;
  verifier : option oidc.IDTokenVerifier;
  MyLog : option log.Logger
}.

(** The adapter as the configuration loader leaves it, before [Setup]. *)
Definition unconfigured (issuerURL clientID clientSecret : string) : OIDC :=
  {| IssuerURL := issuerURL; ClientID := clientID; ClientSecret := clientSecret;
     OAuthProvider_ := {| Config := None; ctx := None |};
     provider := None; verifier := None; MyLog := None |}.

(* ================================================================== *)
(** * The world the adapter runs in *)

(** The libraries' operations the adapter delegates to.  They reach the
    network or depend on keys and JSON decoding, so they are members of
    a class and not re-implemented; their answers are fixed for the
    duration of a run.  The receiver of [oidc_Verify] is passed as the
    adapter holds it, nil included: what the library does with a nil
    receiver is the library's business. *)
Class Collaborators : Type := {
  (** [oidc.NewProvider(ctx, issuer)]: fetches the discovery document. *)
  oidc_NewProvider : option Context → string → reply oidc.Provider;
  (** [v.Verify(ctx, rawIDToken)]: signature, issuer, audience, expiry. *)
  oidc_Verify :
    option oidc.IDTokenVerifier → option Context → string → reply oidc.IDToken;
  (** [idToken.Claims(&user)]: decodes the payload into [userClaims]. *)
  oidc_Claims : oidc.IDToken → reply userClaims;
  (** The OAuth2 client's construction of an authorization URL, with the
      signature the specification gives it:
      [buildAuthorizationURL(clientID, redirectURI, scopes, state)]. *)
  buildAuthorizationURL : string → string → list string → string → string;
  (** The OAuth2 client's authorization-code exchange, with the signature
      the specification gives it:
      [exchangeAuthorizationCode(redirectURI, code)]. *)
  exchangeAuthorizationCode : string → string → reply oauth2.Token
}.

(** What the outside can observe of a run, in the order it happens: the
    calls into the libraries and the lines written to standard output. *)
Inductive event : Type :=
| Discover (issuer : string)
| Exchange (redirectURI code : string)
| Verify (rawIDToken : string)
| DecodeClaims (t : oidc.IDToken)
| Output (line : string).

(** The state a method runs in: the [OIDC] structure its receiver points
    to, the events so far, and the orders in which the runtime will walk
    the maps of the [range] statements still to come (Go leaves that
    order unspecified; see [visit]). *)
Record World : Type := {
  self : OIDC;
  trace : list event;
  orders : list (list nat)
}.

(** A method either returns, in a new world, or panics, in the world
    reached by then. *)
Inductive outcome (A : Type) : Type :=
| Normal (a : A) (w : World)
| Panic (reason : string) (w : World).
Arguments Normal {A} a w.
Arguments Panic {A} reason w.

(** The events up to the end of a run, however it ends. *)
Definition trace_of {A} (r : outcome A) : list event :=
  match r with
  | Normal _ w => trace w
  | Panic _ w => trace w
  end.

Definition M (A : Type) : Type := World → outcome A.

#[global] Instance M_ret : MRet M := λ A a w, Normal a w.
#[global] Instance M_bind : MBind M := λ A B f m w,
  match m w with
  | Normal a w' => f a w'
  | Panic r w' => Panic r w'
  end.

Definition panic {A} (reason : string) : M A := λ w, Panic reason w.

Definition get_self : M OIDC := λ w, Normal (self w) w.

Definition put_self (o : OIDC) : M unit := λ w,
  Normal () {| self := o; trace := trace w; orders := orders w |}.

Definition emit (e : event) : M unit := λ w,
  Normal () {| self := self w; trace := trace w ++ [e]; orders := orders w |}.

(** A [for ... range] over a slice whose body updates [acc]. *)
Fixpoint foldM {A B} (body : B → A → M B) (acc : B) (l : list A) : M B :=
  match l with
  | [] => mret acc
  | x :: l' => acc' ← body acc x; foldM body acc' l'
  end.

(** Assignments to the fields of [*o]. *)
Definition set_ctx (c : option Context) : M unit :=
  o ← get_self;
  put_self
    {| IssuerURL := IssuerURL o; ClientID := ClientID o;
       ClientSecret := ClientSecret o;
       OAuthProvider_ := {| Config := Config (OAuthProvider_ o); ctx := c |};
       provider := provider o; verifier := verifier o; MyLog := MyLog o |}.

Definition set_Config (c : option oauth2.Config) : M unit :=
  o ← get_self;
  put_self
    {| IssuerURL := IssuerURL o; ClientID := ClientID o;
       ClientSecret := ClientSecret o;
       OAuthProvider_ := {| Config := c; ctx := ctx (OAuthProvider_ o) |};
       provider := provider o; verifier := verifier o; MyLog := MyLog o |}.

Definition set_provider (p : option oidc.Provider) : M unit :=
  o ← get_self;
  put_self
    {| IssuerURL := IssuerURL o; ClientID := ClientID o;
       ClientSecret := ClientSecret o; OAuthProvider_ := OAuthProvider_ o;
       provider := p; verifier := verifier o; MyLog := MyLog o |}.

Definition set_verifier (v : option oidc.IDTokenVerifier) : M unit :=
  o ← get_self;
  put_self
    {| IssuerURL := IssuerURL o; ClientID := ClientID o;
       ClientSecret := ClientSecret o; OAuthProvider_ := OAuthProvider_ o;
       provider := provider o; verifier := v; MyLog := MyLog o |}.

Definition set_MyLog (l : option log.Logger) : M unit :=
  o ← get_self;
  put_self
    {| IssuerURL := IssuerURL o; ClientID := ClientID o;
       ClientSecret := ClientSecret o; OAuthProvider_ := OAuthProvider_ o;
       provider := provider o; verifier := verifier o; MyLog := l |}.

(* ------------------------------------------------------------------ *)
(** ** Printing *)

(** [fmt.Sprintln]: the operands separated by spaces, then a newline. *)
Definition Sprintln (operands : list string) : string :=
  str.Join operands " " +:+ String "010" EmptyString.

(** The [%v] form of the local [user] structure: [{email [g1 g2]}]. *)
Definition fmt_v (u : userClaims) : string :=
  "{" +:+ Email u +:+ " [" +:+ str.Join (Groups u) " " +:+ "]}".

(** [l.Println(operands...)] on a logger pointer.  A nil logger is
    dereferenced: a panic.  The line is the prefix and the message (with
    [Lmsgprefix] the prefix stands just before the message); the date and
    time that precede them are left out. *)
Definition Println (l : option log.Logger) (operands : list string) : M unit :=
  match l with
  | None => panic "nil pointer dereference: Logger"
  | Some lg =>
      match log.out lg with
      | log.Stdout => emit (Output (log.prefix lg +:+ Sprintln operands))
      | log.Discard => mret ()
      end
  end.

(* ------------------------------------------------------------------ *)
(** ** Maps and their iteration order *)

(** The order in which [range] walks a collection of entries, driven by
    the runtime's choices: each choice picks the next entry among those
    not yet visited; when the choices run out the rest is walked as it
    stands.  Every order is the result of some choices ([visit_complete]),
    and nothing but a reordering is ([visit_Permutation]). *)
Fixpoint visit {A} (choices : list nat) (l : list A) : list A :=
  match choices with
  | [] => l
  | i :: choices' =>
      match l !! (i `mod` length l) with
      | Some x => x :: visit choices' (delete (i `mod` length l) l)
      | None => []
      end
  end.

(** [for k, v := range m]: the entries of [m] in the order the runtime
    chooses for this statement. *)
Definition range_map `{Countable K} {V} (m : gmap K V) : M (list (K * V)) :=
  λ w,
    Normal (visit (hd [] (orders w)) (map_to_list m))
           {| self := self w; trace := trace w; orders := tl (orders w) |}.

(* ================================================================== *)
(** * The adapter's operations *)

Section Adapter.
Context `{Collaborators}.

(** [func (o *OIDC) Name() string] *)
Definition Name : M string := mret "oidc".

(** [func (o *OIDC) Setup() error] *)
Definition Setup : M (option error) :=
  o ← get_self;
  if bool_decide (IssuerURL o = "") || bool_decide (ClientID o = "")
     || bool_decide (ClientSecret o = "")
  then
    mret (Some (errors.New
      "providers.oidc.issuer-url, providers.oidc.client-id, providers.oidc.client-secret must be set"))
  else
    set_ctx (Some Background);;
    o ← get_self;
    emit (Discover (IssuerURL o));;
    match oidc_NewProvider (ctx (OAuthProvider_ o)) (IssuerURL o) with
    | Crash => panic "oidc.NewProvider"
    | Failure err => set_provider None;; mret (Some err)
    | Value p =>
        set_provider (Some p);;
        let myLog :=
          log.New log.Discard "ByMarek: "
            (Z.lor (Z.lor log.Lmsgprefix log.Ldate) log.Ltime) in
        let myLog := log.SetOutput myLog log.Stdout in
        Println (Some myLog) ["----------> OIDC.Setup"];;
        set_MyLog (Some myLog);;
        o ← get_self;
        match provider o with
        | None => panic "nil pointer dereference: Provider"
        | Some p =>
            set_Config (Some
              {| oauth2.ClientID := ClientID o;
                 oauth2.ClientSecret := ClientSecret o;
                 oauth2.Endpoint_ := oidc.Endpoint p;
                 oauth2.RedirectURL := "";
                 oauth2.Scopes := [oidc.ScopeOpenID; "profile"; "email"] |});;
            o ← get_self;
            match provider o with
            | None => panic "nil pointer dereference: Provider"
            | Some p =>
                set_verifier (Some
                  (oidc.Verifier p {| oidc.ClientID := ClientID o |}));;
                mret None
            end
        end
    end.

(** Modelled from the spec: [OAuthGetLoginURL], a method of the embedded
    [OAuthProvider] whose source is in another file of the package.  The
    spec has the OAuth2 client's
    "buildAuthorizationURL(clientID, redirectURI, scopes, state) → URL",
    a "pure, deterministic construction of an authorization-request URL
    embedding the configured client ID, the supplied redirect URI, and
    an opaque state token", with "no side effects, no network I/O".
    Before [Setup] ("no operation below may be called before Setup
    succeeds") there is no configuration to read: the nil pointer is
    dereferenced. *)
Definition OAuthGetLoginURL (p : OAuthProvider) (redirectURI state : string)
  : M string :=
  match Config p with
  | None => panic "nil pointer dereference: Config"
  | Some c =>
      mret (buildAuthorizationURL (oauth2.ClientID c) redirectURI
              (oauth2.Scopes c) state)
  end.

(** Modelled from the spec: [OAuthExchangeCode], a method of the embedded
    [OAuthProvider] whose source is in another file of the package.  The
    spec has the OAuth2 client's
    "exchangeAuthorizationCode(redirectURI, code) → tokenResponse | error":
    it "sends code and redirectURI to the token endpoint and receives a
    token response".  The result is Go's pair of a token pointer and an
    error. *)
Definition OAuthExchangeCode (p : OAuthProvider) (redirectURI code : string)
  : M (option oauth2.Token * option error) :=
  match Config p with
  | None => panic "nil pointer dereference: Config"
  | Some _ =>
      emit (Exchange redirectURI code);;
      match exchangeAuthorizationCode redirectURI code with
      | Value t => mret (Some t, None)
      | Failure err => mret (None, Some err)
      | Crash => panic "oauth2.Config.Exchange"
      end
  end.

(** [func (o *OIDC) GetLoginURL(redirectURI, state string) string] *)
Definition GetLoginURL (redirectURI state : string) : M string :=
  o ← get_self;
  OAuthGetLoginURL (OAuthProvider_ o) redirectURI state.

(** [o.MyLog.Println(operands...)] *)
Definition MyLog_Println (operands : list string) : M unit :=
  o ← get_self;
  Println (MyLog o) operands.

(** [func (o *OIDC) ExchangeCode(redirectURI, code string) (string, error)] *)
Definition ExchangeCode (redirectURI code : string)
  : M (string * option error) :=
  o ← get_self;
  '(token, err) ← OAuthExchangeCode (OAuthProvider_ o) redirectURI code;
  match err with
  | Some err => mret ("", Some err)
  | None =>
      match token with
      | None => panic "nil pointer dereference: Token"
      | Some token =>
          let '(rawIDToken, ok) :=
            assert_string (oauth2.Extra token "id_token") in
          if negb ok then mret ("", Some (errors.New "Missing id_token"))
          else
            MyLog_Println
              ["----------> OIDC.ExchangeCode, rawIDToken:"; rawIDToken];;
            mret (rawIDToken, None)
      end
  end.

(** [func mapKeys[M ~map[K]V, K comparable, V any](m M) []K] *)
Definition mapKeys `{Countable K} {V} (m : gmap K V) : M (list K) :=
  entries ← range_map m;
  mret (foldl (λ r entry, r ++ [entry.1]) [] entries).

(** Lines 123 to 132 of [GetUser]: the two nested loops that fill
    [groupMap], and the call of [mapKeys] on it. *)
Definition GetUser_groups (rawGroups : list string) : M (list string) :=
  groupMap ←
    foldM (λ (groupMap : gmap string bool) groupFull,
             foldM (λ (groupMap : gmap string bool) group,
                      if bool_decide (group ≠ "") then
                        MyLog_Println
                          ["----------> OIDC.GetUser, group:"; group];;
                        mret (<[group := true]> groupMap)
                      else mret groupMap)
                   groupMap (str.Split groupFull "/"))
          ∅ rawGroups;
  mapKeys groupMap.

(** [func (o *OIDC) GetUser(token, _ string)], returning a [User] pointer and an error *)
Definition GetUser (token unused : string) : M (option User * option error) :=
  o ← get_self;
  emit (Verify token);;
  match oidc_Verify (verifier o) (ctx (OAuthProvider_ o)) token with
  | Crash => panic "IDTokenVerifier.Verify"
  | Failure err => mret (None, Some err)
  | Value idToken =>
      emit (DecodeClaims idToken);;
      match oidc_Claims idToken with
      | Crash => panic "IDToken.Claims"
      | Failure err => mret (None, Some err)
      | Value user =>
          MyLog_Println ["----------> OIDC.GetUser, user:"; fmt_v user];;
          uniqueGrops ← GetUser_groups (Groups user);
          mret (Some {| User_User := Email user;
                        User_Groups := uniqueGrops |}, None)
      end
  end.

End Adapter.

(* ================================================================== *)
(** * The specification's wording of the group policy *)

(** The group set as the specification words it: the adapter "splits
    every raw group string on [/], discards empty segments [...] and
    unions all resulting segments across all raw group values into a
    single deduplicated set". *)
Definition spec_groups (rawGroups : list string) : gset string :=
  ⋃ ((λ raw, list_to_set (filter (λ seg, seg ≠ "") (str.Split raw "/")))
       <$> rawGroups).

(** A raw group that consists of slashes only (the empty one included). *)
Fixpoint only_slashes (raw : string) : bool :=
  match raw with
  | EmptyString => true
  | String c rest => Ascii.eqb c "/" && only_slashes rest
  end.

(* ================================================================== *)
(** * A test double of the collaborators *)

(** An issuer, a verifier that accepts exactly the tokens of a table and
    decodes them to the claims the table gives, and a token endpoint that
    always answers [response]. *)
Definition stub_issuer : oidc.Provider :=
  {| oidc.issuer := "https://idp.example";
     oidc.authURL := "https://idp.example/auth";
     oidc.tokenURL := "https://idp.example/token";
     oidc.jwksURL := "https://idp.example/keys" |}.

(** The verified token the stub verifier [v] makes of the raw token. *)
Definition stub_idToken (v : oidc.IDTokenVerifier) (raw : string) : oidc.IDToken :=
  {| oidc.Issuer := oidc.expectedIssuer v;
     oidc.Audience := [oidc.ClientID (oidc.config v)];
     oidc.Subject := "subject";
     oidc.claims := raw |}.

Definition stub (tokens : list (string * userClaims))
    (response : reply oauth2.Token) : Collaborators :=
  {| oidc_NewProvider _ issuer :=
       if bool_decide (issuer = "https://idp.example") then Value stub_issuer
       else Failure (oidc_failure "discovery failed");
     oidc_Verify v _ raw :=
       match v with
       | None => Crash
       | Some v =>
           match (list_to_map tokens : gmap string userClaims) !! raw with
           | Some _ => Value (stub_idToken v raw)
           | None => Failure (oidc_failure "failed to verify signature")
           end
       end;
     oidc_Claims t :=
       match (list_to_map tokens : gmap string userClaims) !! oidc.claims t with
       | Some u => Value u
       | None => Failure (oidc_failure "cannot unmarshal claims")
       end;
     buildAuthorizationURL clientID redirectURI scopes state :=
       "https://idp.example/auth?client_id=" +:+ clientID
       +:+ "&redirect_uri=" +:+ redirectURI
       +:+ "&scope=" +:+ str.Join scopes " "
       +:+ "&state=" +:+ state;
     exchangeAuthorizationCode _ _ := response |}.

(** A token response that carries these extension fields. *)
Definition stub_response (extra : list (string * any)) : oauth2.Token :=
  {| oauth2.AccessToken := "access-token";
     oauth2.TokenType := "Bearer";
     oauth2.RefreshToken := "";
     oauth2.Extra key :=
       default any_nil ((list_to_map extra : gmap string any) !! key) |}.


(** The world [w] with the events [evs] added and nothing else changed. *)
Definition after (evs : list event) (w : World) : World :=
  {| self := self w; trace := trace w ++ evs; orders := orders w |}.

(** What a logger that is not nil adds to the trace for one [Println]. *)
Definition printed (lg : log.Logger) (operands : list string) : list event :=
  match log.out lg with
  | log.Stdout => [Output (log.prefix lg +:+ Sprintln operands)]
  | log.Discard => []
  end.

(** The map and the output of the two loops of [GetUser], as functions
    of the raw groups: what [GetUser_groups] computes when the logger is
    not nil ([GetUser_loops_run]). *)
Definition fill (lg : log.Logger) (acc : gmap string bool * list event)
    (segments : list string) : gmap string bool * list event :=
  foldl (λ acc group,
           if bool_decide (group ≠ "") then
             (<[group := true]> acc.1,
              acc.2 ++ printed lg ["----------> OIDC.GetUser, group:"; group])
           else acc)
        acc segments.

Definition fill_all (lg : log.Logger) (acc : gmap string bool * list event)
    (rawGroups : list string) : gmap string bool * list event :=
  foldl (λ acc groupFull, fill lg acc (str.Split groupFull "/")) acc rawGroups.

(** The world at start: an adapter, nothing observed yet. *)
Definition start (o : OIDC) (iteration : list (list nat)) : World :=
  {| self := o; trace := []; orders := iteration |}.

(** The adapter [o] once [Setup] has succeeded on it with the discovered
    issuer [p] ([Setup_success]). *)
Definition configured (o : OIDC) (p : oidc.Provider) : OIDC :=
  {| IssuerURL := IssuerURL o; ClientID := ClientID o;
     ClientSecret := ClientSecret o;
     OAuthProvider_ :=
       {| Config := Some
            {| oauth2.ClientID := ClientID o;
               oauth2.ClientSecret := ClientSecret o;
               oauth2.Endpoint_ := oidc.Endpoint p;
               oauth2.RedirectURL := "";
               oauth2.Scopes := ["openid"; "profile"; "email"] |};
          ctx := Some Background |};
     provider := Some p;
     verifier := Some (oidc.Verifier p {| oidc.ClientID := ClientID o |});
     MyLog := Some {| log.prefix := "ByMarek: "; log.flag := 67;
                      log.out := log.Stdout |} |}.

(** An adapter on which [Setup] has succeeded against [stub_issuer]. *)
Definition ready : OIDC :=
  configured (unconfigured "https://idp.example" "gateway" "s3cret") stub_issuer.

(** The tokens the stub verifier accepts, with their claims. *)
Definition stub_tokens : list (string * userClaims) :=
  [("jwt-t", {| Email := "t@x.com"; Groups := ["/teamA/sub"; "teamA"] |});
   ("jwt-u", {| Email := "u@x.com"; Groups := ["/org/teamA"; "org/teamB/"] |});
   ("jwt-n", {| Email := "n@x.com"; Groups := [] |});
   ("jwt-s", {| Email := "s@x.com"; Groups := ["/"; ""; "///"] |})].

(** A token endpoint that answers with the identity token [jwt-u]. *)
Definition stub_env : Collaborators :=
  stub stub_tokens (Value (stub_response [("id_token", any_string "jwt-u")])).

(** A token endpoint whose answer has an access token and an [id_token]
    field that is not a string. *)
Definition stub_env_no_id_token : Collaborators :=
  stub stub_tokens (Value (stub_response [("id_token", any_int64 7)])).

(** The verifier and the logger of [ready]. *)
Definition ready_verifier : oidc.IDTokenVerifier :=
  oidc.Verifier stub_issuer {| oidc.ClientID := "gateway" |}.

Definition ready_logger : log.Logger :=
  {| log.prefix := "ByMarek: "; log.flag := 67; log.out := log.Stdout |}.

(** The world in which [Setup] has just succeeded on the test double. *)
Definition setup_done : World :=
  {| self := ready;
     trace := [Discover "https://idp.example";
               Output (String.append "ByMarek: "
                        (Sprintln ["----------> OIDC.Setup"]))];
     orders := [] |}.

(** The world a run ends in, however it ends. *)
Definition world_of {A} (r : outcome A) : World :=
  match r with
  | Normal _ w => w
  | Panic _ w => w
  end.

(** [w'] is [w] further on: the adapter is the same, and the events of
    [w] are followed by those that happened since. *)
Definition later (w w' : World) : Prop :=
  self w' = self w ∧ trace w `prefix_of` trace w'.

(** What the two loops of [GetUser] print: for each raw group in turn,
    one line for each of its segments that is not empty. *)
Definition group_lines (lg : log.Logger) (rawGroups : list string) : list event :=
  rawGroups ≫= λ groupFull,
    filter (λ seg, seg ≠ "") (str.Split groupFull "/") ≫= λ group,
      printed lg ["----------> OIDC.GetUser, group:"; group].

(** The number of segments of the raw groups, empty ones included. *)
Definition segment_count (rawGroups : list string) : nat :=
  sum_list_with (λ raw, S (str.CountByte raw "/")) rawGroups.

(** A token endpoint that refuses the code. *)
Definition stub_env_exchange_fails : Collaborators :=
  stub stub_tokens (Failure (oauth2_failure "invalid_grant")).

(** A verifier as in [stub_env] whose tokens carry claims that do not
    decode. *)
Definition stub_env_bad_claims : Collaborators :=
  {| oidc_NewProvider := @oidc_NewProvider stub_env;
     oidc_Verify := @oidc_Verify stub_env;
     oidc_Claims _ := Failure (oidc_failure "cannot unmarshal claims");
     buildAuthorizationURL := @buildAuthorizationURL stub_env;
     exchangeAuthorizationCode := @exchangeAuthorizationCode stub_env |}.

(** The adapter [ready] with its exported field [MyLog] set back to nil. *)
Definition ready_without_logger : OIDC :=
  {| IssuerURL := IssuerURL ready; ClientID := ClientID ready;
     ClientSecret := ClientSecret ready; OAuthProvider_ := OAuthProvider_ ready;
     provider := provider ready; verifier := verifier ready; MyLog := None |}.


(** Unfolds the monad's operations in a run. *)
Ltac run := unfold mbind, M_bind, mret, M_ret, get_self, panic; simpl.

(* ================================================================== *)
(** * Properties of the model of package strings *)

Section Split.
Variable sep : ascii.

Lemma Split_not_nil (s : string) : str.Split s sep ≠ [].
Proof.
  destruct s as [|c s]; simpl; [done|].
  destruct (Ascii.eqb c sep); [done|].
  by destruct (str.Split s sep).
Qed.

(** Joining the parts with the separator gives the string back. *)
Lemma Join_Split (s : string) : str.Join (str.Split s sep) sep = s.
Proof.
  induction s as [|c s IH]; simpl; [done|].
  destruct (Ascii.eqb c sep) eqn:E.
  - apply Ascii.eqb_eq in E as ->.
    pose proof (Split_not_nil s) as Hne.
    destruct (str.Split s sep) as [|p ps]; [done|].
    simpl in *. by rewrite IH.
  - pose proof (Split_not_nil s) as Hne.
    destruct (str.Split s sep) as [|p ps]; [done|].
    destruct ps as [|q ps]; simpl in *; by rewrite <- IH.
Qed.

(** No part contains the separator. *)
Lemma Split_parts_free (s : string) :
  Forall (λ part, str.ContainsByte part sep = false) (str.Split s sep).
Proof.
  induction s as [|c s IH]; simpl.
  - by constructor.
  - destruct (Ascii.eqb c sep) eqn:E.
    + by constructor.
    + destruct (str.Split s sep) as [|p ps].
      * constructor; [|done]. simpl. by rewrite E.
      * inversion IH; subst. constructor; [|done]. simpl. by rewrite E.
Qed.

(** There is one part more than there are separators. *)
Lemma Split_length (s : string) :
  length (str.Split s sep) = S (str.CountByte s sep).
Proof.
  induction s as [|c s IH]; simpl; [done|].
  destruct (Ascii.eqb c sep); simpl; [by rewrite IH|].
  pose proof (Split_not_nil s).
  destruct (str.Split s sep); [done|]. simpl in *. lia.
Qed.

(** A string without the separator is its own single part. *)
Lemma Split_free (s : string) :
  str.ContainsByte s sep = false → str.Split s sep = [s].
Proof.
  induction s as [|c s IH]; simpl; [done|].
  intros [E Hs]%orb_false_iff. rewrite E, (IH Hs). done.
Qed.

Lemma Split_app_sep (part rest : string) :
  str.ContainsByte part sep = false →
  str.Split (part +:+ String sep rest) sep = part :: str.Split rest sep.
Proof.
  induction part as [|c part IH].
  - intros _. change ("" +:+ String sep rest) with (String sep rest).
    simpl. by rewrite Ascii.eqb_refl.
  - intros [E Hpart]%orb_false_iff.
    change (String c part +:+ String sep rest)
      with (String c (part +:+ String sep rest)).
    simpl. by rewrite E, (IH Hpart).
Qed.

(** [Split] is the only inverse of [Join] on parts free of the
    separator: the two lemmas above determine it. *)
Lemma Split_Join (parts : list string) :
  parts ≠ [] →
  Forall (λ part, str.ContainsByte part sep = false) parts →
  str.Split (str.Join parts sep) sep = parts.
Proof.
  induction parts as [|p ps IH]; [done|]. intros _ Hfree.
  inversion Hfree as [|? ? Hp Hps]; subst.
  destruct ps as [|q ps]; [by apply Split_free|].
  specialize (IH ltac:(done) Hps).
  change (str.Join (p :: q :: ps) sep)
    with (p +:+ String sep (str.Join (q :: ps) sep)).
  rewrite Split_app_sep by done. by rewrite IH.
Qed.

End Split.

Lemma Split_only_slashes (raw : string) :
  only_slashes raw = true → Forall (λ part, part = "") (str.Split raw "/").
Proof.
  induction raw as [|c raw IH]; simpl.
  - by repeat constructor.
  - intros [E Hraw]%andb_true_iff. rewrite E. constructor; auto.
Qed.

(* ================================================================== *)
(** * The iteration order of a map *)

(** Whatever the runtime chooses, [range] visits every entry once. *)
Lemma visit_Permutation {A} (choices : list nat) (l : list A) :
  visit choices l ≡ₚ l.
Proof.
  revert l. induction choices as [|i choices IH]; intros l; simpl; [done|].
  destruct (l !! (i `mod` length l)) as [x|] eqn:Hx.
  - rewrite IH. symmetry. by apply delete_Permutation.
  - destruct l as [|y l]; [done|].
    apply lookup_ge_None in Hx.
    pose proof (Nat.mod_upper_bound i (length (y :: l)) ltac:(done)). lia.
Qed.


(* ================================================================== *)
(** * Running the monad *)

Lemma after_nil (w : World) : after [] w = w.
Proof. destruct w. unfold after. simpl. by rewrite app_nil_r. Qed.

Lemma after_after (evs1 evs2 : list event) (w : World) :
  after evs2 (after evs1 w) = after (evs1 ++ evs2) w.
Proof. unfold after. simpl. by rewrite app_assoc. Qed.

Lemma Println_run (lg : log.Logger) (operands : list string) (w : World) :
  Println (Some lg) operands w = Normal () (after (printed lg operands) w).
Proof.
  unfold Println, printed. destruct (log.out lg).
  - run. by rewrite after_nil.
  - done.
Qed.

Lemma MyLog_Println_run (lg : log.Logger) (operands : list string) (w : World) :
  MyLog (self w) = Some lg →
  MyLog_Println operands w = Normal () (after (printed lg operands) w).
Proof. intros Hlg. unfold MyLog_Println. run. rewrite Hlg. apply Println_run. Qed.

(** The inner loop of [GetUser], over the segments of one raw group. *)
Lemma GetUser_inner_run (lg : log.Logger) (w : World) (segments : list string)
    (groupMap : gmap string bool) (evs : list event) :
  MyLog (self w) = Some lg →
  foldM (λ (groupMap : gmap string bool) group,
           if bool_decide (group ≠ "") then
             MyLog_Println ["----------> OIDC.GetUser, group:"; group];;
             mret (<[group := true]> groupMap)
           else mret groupMap)
        groupMap segments (after evs w)
  = Normal (fill lg (groupMap, evs) segments).1
           (after (fill lg (groupMap, evs) segments).2 w).
Proof.
  intros Hlg. revert groupMap evs.
  induction segments as [|group segments IH]; intros groupMap evs; [done|].
  simpl. run. destruct (bool_decide (group ≠ "")).
  - run. rewrite (MyLog_Println_run lg) by done.
    rewrite after_after. apply IH.
  - apply IH.
Qed.

(** The outer loop of [GetUser], over the raw groups. *)
Lemma GetUser_loops_run (lg : log.Logger) (w : World) (rawGroups : list string)
    (groupMap : gmap string bool) (evs : list event) :
  MyLog (self w) = Some lg →
  foldM (λ (groupMap : gmap string bool) groupFull,
           foldM (λ (groupMap : gmap string bool) group,
                    if bool_decide (group ≠ "") then
                      MyLog_Println ["----------> OIDC.GetUser, group:"; group];;
                      mret (<[group := true]> groupMap)
                    else mret groupMap)
                 groupMap (str.Split groupFull "/"))
        groupMap rawGroups (after evs w)
  = Normal (fill_all lg (groupMap, evs) rawGroups).1
           (after (fill_all lg (groupMap, evs) rawGroups).2 w).
Proof.
  intros Hlg. revert groupMap evs.
  induction rawGroups as [|groupFull rawGroups IH]; intros groupMap evs; [done|].
  simpl. run. rewrite (GetUser_inner_run lg) by done.
  destruct (fill lg (groupMap, evs) (str.Split groupFull "/")) as [m' evs'] eqn:E.
  simpl. apply IH.
Qed.

Lemma mapKeys_foldl {K V} (entries : list (K * V)) (r : list K) :
  foldl (λ r entry, r ++ [entry.1]) r entries = r ++ entries.*1.
Proof.
  revert r. induction entries as [|e entries IH]; intros r; simpl.
  - by rewrite app_nil_r.
  - rewrite IH. by rewrite <- app_assoc.
Qed.

Lemma mapKeys_run `{Countable K} {V} (m : gmap K V) (w : World) :
  mapKeys m w
  = Normal (visit (hd [] (orders w)) (map_to_list m)).*1
           {| self := self w; trace := trace w; orders := tl (orders w) |}.
Proof. unfold mapKeys, range_map. run. by rewrite mapKeys_foldl. Qed.

(** The keys [mapKeys] returns are those of the map, each once. *)
Lemma visit_keys `{Countable K} {V} (m : gmap K V) (choices : list nat) :
  NoDup (visit choices (map_to_list m)).*1
  ∧ list_to_set (visit choices (map_to_list m)).*1 = dom m.
Proof.
  assert ((visit choices (map_to_list m)).*1 ≡ₚ (map_to_list m).*1) as Hperm.
  { apply fmap_Permutation, visit_Permutation. }
  split.
  - rewrite Hperm. apply NoDup_fst_map_to_list.
  - apply set_eq. intros k.
    rewrite elem_of_list_to_set, Hperm, elem_of_dom.
    rewrite list_elem_of_fmap. split.
    + intros [[k' v] [-> Hkv]]. apply elem_of_map_to_list in Hkv. by eexists.
    + intros [v Hv]. exists (k, v). split; [done|].
      by apply elem_of_map_to_list.
Qed.

(** The keys of the map the loops build. *)
Lemma fill_cons (lg : log.Logger) (acc : gmap string bool * list event)
    (group : string) (segments : list string) :
  fill lg acc (group :: segments)
  = fill lg (if bool_decide (group ≠ "") then
               (<[group := true]> acc.1,
                acc.2 ++ printed lg ["----------> OIDC.GetUser, group:"; group])
             else acc) segments.
Proof. done. Qed.

Lemma dom_fill (lg : log.Logger) (acc : gmap string bool * list event)
    (segments : list string) :
  dom (fill lg acc segments).1
  = dom acc.1 ∪ list_to_set (filter (λ seg, seg ≠ "") segments).
Proof.
  revert acc. induction segments as [|seg segments IH]; intros acc.
  - simpl. by rewrite (right_id_L ∅ (∪)).
  - rewrite fill_cons, IH. case_bool_decide as Hseg; simpl.
    + rewrite filter_cons_True by done.
      rewrite dom_insert_L, list_to_set_cons.
      by rewrite (assoc_L (∪)), (comm_L (∪) (dom acc.1)).
    + by rewrite filter_cons_False by (by intros ?).
Qed.

Lemma fill_all_cons (lg : log.Logger) (acc : gmap string bool * list event)
    (groupFull : string) (rawGroups : list string) :
  fill_all lg acc (groupFull :: rawGroups)
  = fill_all lg (fill lg acc (str.Split groupFull "/")) rawGroups.
Proof. done. Qed.

Lemma spec_groups_cons (raw : string) (rawGroups : list string) :
  spec_groups (raw :: rawGroups)
  = list_to_set (filter (λ seg, seg ≠ "") (str.Split raw "/"))
    ∪ spec_groups rawGroups.
Proof. done. Qed.

Lemma dom_fill_all (lg : log.Logger) (acc : gmap string bool * list event)
    (rawGroups : list string) :
  dom (fill_all lg acc rawGroups).1 = dom acc.1 ∪ spec_groups rawGroups.
Proof.
  revert acc. induction rawGroups as [|raw rawGroups IH]; intros acc.
  - simpl. unfold spec_groups. simpl. by rewrite (right_id_L ∅ (∪)).
  - rewrite fill_all_cons, IH, dom_fill, spec_groups_cons.
    by rewrite (assoc_L (∪)).
Qed.

(** Membership in the specification's group set, spelled out. *)
Lemma elem_of_spec_groups (rawGroups : list string) (g : string) :
  g ∈ spec_groups rawGroups
  ↔ g ≠ "" ∧ ∃ raw, raw ∈ rawGroups ∧ g ∈ str.Split raw "/".
Proof.
  unfold spec_groups. rewrite elem_of_union_list. split.
  - intros [X [HX Hg]]. apply list_elem_of_fmap in HX as [raw [-> Hraw]].
    apply elem_of_list_to_set, list_elem_of_filter in Hg as [Hne Hg].
    eauto.
  - intros [Hne [raw [Hraw Hg]]]. eexists. split.
    + apply list_elem_of_fmap. eauto.
    + by apply elem_of_list_to_set, list_elem_of_filter.
Qed.

(** Lines 123 to 132 of [GetUser], run with a logger that is not nil. *)
Lemma GetUser_groups_run (lg : log.Logger) (w : World) (rawGroups : list string) :
  MyLog (self w) = Some lg →
  GetUser_groups rawGroups w
  = Normal (visit (hd [] (orders w))
              (map_to_list (fill_all lg (∅, []) rawGroups).1)).*1
           {| self := self w;
              trace := trace w ++ (fill_all lg (∅, []) rawGroups).2;
              orders := tl (orders w) |}.
Proof.
  intros Hlg. unfold GetUser_groups.
  unfold mbind at 1. unfold M_bind.
  rewrite <- (after_nil w) at 1.
  rewrite (GetUser_loops_run lg) by done.
  by rewrite mapKeys_run.
Qed.

(** What the group list of a successful run looks like. *)
Lemma GetUser_groups_spec (lg : log.Logger) (w : World) (rawGroups : list string) :
  MyLog (self w) = Some lg →
  ∃ l w', GetUser_groups rawGroups w = Normal l w'
    ∧ NoDup l
    ∧ list_to_set l = spec_groups rawGroups
    ∧ self w' = self w.
Proof.
  intros Hlg. rewrite (GetUser_groups_run lg) by done.
  eexists _, _. split; [done|].
  destruct (visit_keys (fill_all lg (∅, []) rawGroups).1 (hd [] (orders w)))
    as [Hnd Hset].
  split; [done|]. split; [|done].
  rewrite Hset, dom_fill_all. simpl. by rewrite dom_empty_L, (left_id_L ∅ (∪)).
Qed.

(* ================================================================== *)
(** * GetUser *)

Section GetUser.
Context `{Collaborators}.

(** A run of [GetUser] on a token that verifies and decodes, with a
    logger that is not nil. *)
Lemma GetUser_success (w : World) (token unused : string)
    (idToken : oidc.IDToken) (user : userClaims) (lg : log.Logger) :
  oidc_Verify (verifier (self w)) (ctx (OAuthProvider_ (self w))) token
    = Value idToken →
  oidc_Claims idToken = Value user →
  MyLog (self w) = Some lg →
  ∃ l w',
    GetUser token unused w
      = Normal (Some {| User_User := Email user; User_Groups := l |}, None) w'
    ∧ NoDup l
    ∧ list_to_set l = spec_groups (Groups user)
    ∧ self w' = self w.
Proof.
  intros HV HC Hlg. unfold GetUser. run. rewrite HV. run. rewrite HC. run.
  rewrite (MyLog_Println_run lg) by done.
  edestruct (GetUser_groups_spec lg) as (l & w' & Hrun & Hnd & Hset & Hself);
    [|rewrite Hrun]; [done|].
  eexists _, _. split; [done|]. split; [done|]. split; [done|].
  by rewrite Hself.
Qed.

(** A run of [GetUser] that returns a user went through verification,
    decoding and the loops. *)
Lemma GetUser_inv (w w' : World) (token unused : string) (u : User) :
  GetUser token unused w = Normal (Some u, None) w' →
  ∃ idToken user lg,
    oidc_Verify (verifier (self w)) (ctx (OAuthProvider_ (self w))) token
      = Value idToken
    ∧ oidc_Claims idToken = Value user
    ∧ MyLog (self w) = Some lg.
Proof.
  unfold GetUser. run.
  destruct (oidc_Verify _ _ token) as [idToken|err|] eqn:HV; run; [|done..].
  destruct (oidc_Claims idToken) as [user|err|] eqn:HC; run; [|done..].
  unfold MyLog_Println at 1. run.
  destruct (MyLog (self w)) as [lg|] eqn:Hlg; [|done].
  intros _. by exists idToken, user, lg.
Qed.

End GetUser.

(** Segments that survive the loops are not empty and hold no slash. *)
Lemma spec_groups_shape (rawGroups : list string) (g : string) :
  g ∈ spec_groups rawGroups → g ≠ "" ∧ str.ContainsByte g "/" = false.
Proof.
  intros [Hne (raw & _ & Hg)]%elem_of_spec_groups. split; [done|].
  pose proof (Split_parts_free "/" raw) as Hfree.
  rewrite Forall_forall in Hfree. by apply Hfree.
Qed.

Lemma spec_groups_only_slashes (rawGroups : list string) :
  forallb only_slashes rawGroups = true → spec_groups rawGroups = ∅.
Proof.
  intros Hall. apply set_eq. intros g. split; [|by intros ?%not_elem_of_empty].
  intros [Hne (raw & Hraw & Hg)]%elem_of_spec_groups. exfalso.
  rewrite forallb_forall in Hall.
  apply list_elem_of_In, Hall, Split_only_slashes in Hraw.
  rewrite Forall_forall in Hraw. by apply Hne, Hraw.
Qed.

(** The group set depends on the raw groups as a set only. *)
Lemma spec_groups_proper (raw1 raw2 : list string) :
  (∀ g, g ∈ raw1 ↔ g ∈ raw2) → spec_groups raw1 = spec_groups raw2.
Proof.
  intros Hsame. apply set_eq. intros g. rewrite !elem_of_spec_groups.
  split; intros [Hne (raw & Hraw & Hg)]; (split; [done|]);
    exists raw; (split; [by apply Hsame|done]).
Qed.

(** Flattening what has been flattened changes nothing. *)
Lemma spec_groups_idemp (l : list string) (rawGroups : list string) :
  list_to_set l = spec_groups rawGroups → spec_groups l = spec_groups rawGroups.
Proof.
  intros Hl. apply set_eq. intros g. rewrite <- Hl, elem_of_list_to_set.
  rewrite elem_of_spec_groups. split.
  - intros [Hne (raw & Hraw & Hg)].
    assert (raw ∈ spec_groups rawGroups) as Hin
      by (by rewrite <- Hl, elem_of_list_to_set).
    apply spec_groups_shape in Hin as [_ Hfree].
    rewrite (Split_free _ _ Hfree) in Hg.
    by apply list_elem_of_singleton in Hg as ->.
  - intros Hg.
    assert (g ∈ spec_groups rawGroups) as Hin
      by (by rewrite <- Hl, elem_of_list_to_set).
    apply spec_groups_shape in Hin as [Hne Hfree].
    split; [done|]. exists g. split; [done|].
    rewrite (Split_free _ _ Hfree). by left.
Qed.

(* ================================================================== *)
(** * Setup, GetLoginURL and ExchangeCode *)

Section Setup.
Context `{Collaborators}.

(** The validation of [Setup] rejects an adapter with an empty field
    without touching anything. *)
Lemma Setup_invalid (w : World) :
  IssuerURL (self w) = "" ∨ ClientID (self w) = "" ∨ ClientSecret (self w) = "" →
  Setup w
  = Normal (Some (errors.New
      "providers.oidc.issuer-url, providers.oidc.client-id, providers.oidc.client-secret must be set"))
      w.
Proof.
  intros Hempty. unfold Setup. run.
  destruct Hempty as [-> | [-> | ->]]; simpl;
    repeat (case_bool_decide; simpl); done.
Qed.

Lemma Setup_valid_guard (w : World) :
  IssuerURL (self w) ≠ "" → ClientID (self w) ≠ "" → ClientSecret (self w) ≠ "" →
  bool_decide (IssuerURL (self w) = "") || bool_decide (ClientID (self w) = "")
    || bool_decide (ClientSecret (self w) = "") = false.
Proof. intros. by rewrite !bool_decide_eq_false_2. Qed.

(** [Setup] on a valid configuration whose issuer is discovered. *)
Lemma Setup_success (w : World) (p : oidc.Provider) :
  IssuerURL (self w) ≠ "" → ClientID (self w) ≠ "" → ClientSecret (self w) ≠ "" →
  oidc_NewProvider (Some Background) (IssuerURL (self w)) = Value p →
  Setup w
  = Normal None
      {| self := configured (self w) p;
         trace := trace w ++ [Discover (IssuerURL (self w));
                              Output (String.append "ByMarek: "
                                       (Sprintln ["----------> OIDC.Setup"]))];
         orders := orders w |}.
Proof.
  intros H1 H2 H3 Hp. unfold Setup. run.
  rewrite Setup_valid_guard by done. rewrite Hp. run.
  rewrite <- app_assoc. reflexivity.
Qed.

(** A successful [Setup] leaves a configured adapter. *)
Lemma Setup_inv (w w' : World) :
  Setup w = Normal None w' → ∃ p, self w' = configured (self w) p.
Proof.
  unfold Setup. run.
  destruct (bool_decide _ || bool_decide _ || bool_decide _); [done|].
  destruct (oidc_NewProvider _ _) as [p|err|]; run; [|done..].
  intros [= <-]. by exists p.
Qed.

(** [ExchangeCode] on a configured adapter when the token endpoint
    answers with an identity token. *)
Lemma ExchangeCode_success (w : World) (o : OIDC) (p : oidc.Provider)
    (redirectURI code rawIDToken : string) (response : oauth2.Token) :
  self w = configured o p →
  exchangeAuthorizationCode redirectURI code = Value response →
  oauth2.Extra response "id_token" = any_string rawIDToken →
  ExchangeCode redirectURI code w
  = Normal (rawIDToken, None)
      (after [Exchange redirectURI code;
              Output (String.append "ByMarek: "
                       (Sprintln ["----------> OIDC.ExchangeCode, rawIDToken:";
                                  rawIDToken]))] w).
Proof.
  destruct w as [o' evs iteration]. simpl. intros -> Hresp Hextra.
  unfold ExchangeCode, OAuthExchangeCode. run.
  rewrite Hresp. run. rewrite Hextra. simpl.
  unfold MyLog_Println, after. run.
  rewrite <- app_assoc. reflexivity.
Qed.

End Setup.

(* ================================================================== *)
(** * The properties of the specification *)

(** C1.  For a token that the verifier accepts and whose claims decode
    to an email and a list of raw group strings, [GetUser] returns a user
    with that email whose groups, without duplicates, are as a set what
    the specification words: every raw group split on [/], the empty
    segments dropped, the rest united.  In particular the raw groups
    ["/teamA/sub"; "teamA"] give exactly the set of [teamA] and [sub].
    The adapter is one on which [Setup] has run: its logger is not nil. *)
Theorem GetUser_group_set `{Collaborators} (w : World) (token unused : string)
    (idToken : oidc.IDToken) (email : string) (rawGroups : list string)
    (lg : log.Logger) :
  oidc_Verify (verifier (self w)) (ctx (OAuthProvider_ (self w))) token
    = Value idToken →
  oidc_Claims idToken = Value {| Email := email; Groups := rawGroups |} →
  MyLog (self w) = Some lg →
  ∃ u w',
    GetUser token unused w = Normal (Some u, None) w'
    ∧ User_User u = email
    ∧ NoDup (User_Groups u)
    ∧ list_to_set (User_Groups u) = spec_groups rawGroups
    ∧ (∀ g, g ∈ User_Groups u
            ↔ g ≠ "" ∧ ∃ raw, raw ∈ rawGroups ∧ g ∈ str.Split raw "/")
    ∧ (rawGroups = ["/teamA/sub"; "teamA"] →
       list_to_set (User_Groups u) = ({["teamA"; "sub"]} : gset string)).
Proof.
  intros HV HC Hlg.
  destruct (GetUser_success w token unused idToken _ lg HV HC Hlg)
    as (l & w' & Hrun & Hnd & Hset & _).
  simpl in *. eexists _, w'. split; [exact Hrun|]. simpl.
  split; [done|]. split; [done|]. split; [done|]. split.
  - intros g. by rewrite <- elem_of_spec_groups, <- Hset, elem_of_list_to_set.
  - intros ->. rewrite Hset. by vm_compute.
Qed.

(** C2.  The group flattening of [GetUser] (its lines 123 to 132) gives
    the same set of groups for two lists of raw groups that have the same
    entries, whatever their order and however often each is repeated,
    and whatever order the runtime walks the map in: the two results are
    permutations of each other.  Flattening the result again gives the
    same set.  The lists ["/a/b"; "/a/b"], ["a//b/"] and ["/a"; "a/b"]
    each give exactly the set of [a] and [b]. *)
Theorem group_flattening_invariant (w1 w2 : World) (raw1 raw2 : list string)
    (lg1 lg2 : log.Logger) :
  MyLog (self w1) = Some lg1 →
  MyLog (self w2) = Some lg2 →
  (∀ g, g ∈ raw1 ↔ g ∈ raw2) →
  ∃ l1 l2 l3 la lb lc w1' w2' w3' wa wb wc,
    GetUser_groups raw1 w1 = Normal l1 w1'
    ∧ GetUser_groups raw2 w2 = Normal l2 w2'
    ∧ (list_to_set l1 : gset string) = list_to_set l2
    ∧ l1 ≡ₚ l2
    ∧ GetUser_groups l1 w1' = Normal l3 w3'
    ∧ (list_to_set l3 : gset string) = list_to_set l1
    ∧ GetUser_groups ["/a/b"; "/a/b"] w1 = Normal la wa
    ∧ list_to_set la = ({["a"; "b"]} : gset string)
    ∧ GetUser_groups ["a//b/"] w1 = Normal lb wb
    ∧ list_to_set lb = ({["a"; "b"]} : gset string)
    ∧ GetUser_groups ["/a"; "a/b"] w1 = Normal lc wc
    ∧ list_to_set lc = ({["a"; "b"]} : gset string).
Proof.
  intros Hlg1 Hlg2 Hsame.
  destruct (GetUser_groups_spec lg1 w1 raw1 Hlg1)
    as (l1 & w1' & Hrun1 & Hnd1 & Hset1 & Hself1).
  destruct (GetUser_groups_spec lg2 w2 raw2 Hlg2)
    as (l2 & w2' & Hrun2 & Hnd2 & Hset2 & _).
  destruct (GetUser_groups_spec lg1 w1' l1 ltac:(by rewrite Hself1))
    as (l3 & w3' & Hrun3 & _ & Hset3 & _).
  destruct (GetUser_groups_spec lg1 w1 ["/a/b"; "/a/b"] Hlg1)
    as (la & wa & Hruna & _ & Hseta & _).
  destruct (GetUser_groups_spec lg1 w1 ["a//b/"] Hlg1)
    as (lb & wb & Hrunb & _ & Hsetb & _).
  destruct (GetUser_groups_spec lg1 w1 ["/a"; "a/b"] Hlg1)
    as (lc & wc & Hrunc & _ & Hsetc & _).
  assert (spec_groups ["/a/b"; "/a/b"] = {["a"; "b"]}) as Ea by (by vm_compute).
  assert (spec_groups ["a//b/"] = {["a"; "b"]}) as Eb by (by vm_compute).
  assert (spec_groups ["/a"; "a/b"] = {["a"; "b"]}) as Ec by (by vm_compute).
  rewrite Ea in Hseta. rewrite Eb in Hsetb. rewrite Ec in Hsetc.
  assert ((list_to_set l1 : gset string) = list_to_set l2) as Heq.
  { rewrite Hset1, Hset2. by apply spec_groups_proper. }
  exists l1, l2, l3, la, lb, lc, w1', w2', w3', wa, wb, wc.
  repeat split; try assumption.
  - apply NoDup_Permutation; [done..|]. intros g.
    by rewrite <- !(elem_of_list_to_set (C := gset string)), Heq.
  - by rewrite Hset3, (spec_groups_idemp l1 raw1 Hset1).
Qed.

(** C4.  When the verifier rejects the token, [GetUser] returns that
    error and a nil user, and has done nothing but call the verifier: no
    claims decoded, nothing printed, no map walked, the adapter as it
    was. *)
Theorem GetUser_verification_failure `{Collaborators} (w : World)
    (token unused : string) (err : error) :
  oidc_Verify (verifier (self w)) (ctx (OAuthProvider_ (self w))) token
    = Failure err →
  GetUser token unused w = Normal (None, Some err) (after [Verify token] w).
Proof. intros HV. unfold GetUser. run. by rewrite HV. Qed.

(** C9.  [GetUser] does not look at its second parameter: in the same
    world, two calls that differ in it only have the same outcome. *)
Theorem GetUser_ignores_second_parameter `{Collaborators} (w : World)
    (token s1 s2 : string) :
  GetUser token s1 w = GetUser token s2 w.
Proof. unfold GetUser. reflexivity. Qed.

(** C10.  Every user [GetUser] returns has a group list without empty
    strings, without duplicates and without a slash in any element.  When
    the token verifies and decodes and all its raw groups consist of
    slashes only, which is so when it has no groups claim, [GetUser]
    still returns a user, with an empty group list. *)
Theorem GetUser_groups_well_formed `{Collaborators} (w : World)
    (token unused : string) :
  (∀ u w', GetUser token unused w = Normal (Some u, None) w' →
     NoDup (User_Groups u)
     ∧ Forall (λ g, g ≠ "" ∧ str.ContainsByte g "/" = false) (User_Groups u))
  ∧ (∀ idToken user lg,
       oidc_Verify (verifier (self w)) (ctx (OAuthProvider_ (self w))) token
         = Value idToken →
       oidc_Claims idToken = Value user →
       MyLog (self w) = Some lg →
       forallb only_slashes (Groups user) = true →
       ∃ w', GetUser token unused w
             = Normal (Some {| User_User := Email user; User_Groups := [] |},
                       None) w').
Proof.
  split.
  - intros u w' Hrun.
    destruct (GetUser_inv _ _ _ _ _ Hrun) as (idToken & user & lg & HV & HC & Hlg).
    destruct (GetUser_success w token unused idToken user lg HV HC Hlg)
      as (l & w'' & Hrun' & Hnd & Hset & _).
    rewrite Hrun in Hrun'. injection Hrun' as -> _. simpl.
    split; [done|]. apply Forall_forall. intros g Hg.
    apply (spec_groups_shape (Groups user)).
    by rewrite <- Hset, elem_of_list_to_set.
  - intros idToken user lg HV HC Hlg Hall.
    destruct (GetUser_success w token unused idToken user lg HV HC Hlg)
      as (l & w' & Hrun & _ & Hset & _).
    rewrite (spec_groups_only_slashes _ Hall) in Hset.
    destruct l as [|g l]; [by exists w'|].
    exfalso. apply (not_elem_of_empty (C := gset string) g).
    rewrite <- Hset. apply elem_of_list_to_set. by left.
Qed.


(** C5.  [Setup] fails at its validation, with the configuration error
    and before anything else is done, whenever the issuer URL, the client
    ID or the client secret is empty, in every combination; it goes on
    to the discovery of the issuer when all three are set. *)
Theorem Setup_validation `{Collaborators} (w : World) :
  (IssuerURL (self w) = "" ∨ ClientID (self w) = "" ∨ ClientSecret (self w) = "" →
   Setup w
   = Normal (Some (errors.New
       "providers.oidc.issuer-url, providers.oidc.client-id, providers.oidc.client-secret must be set"))
       w)
  ∧ (IssuerURL (self w) ≠ "" → ClientID (self w) ≠ "" →
     ClientSecret (self w) ≠ "" →
     ∃ rest, trace_of (Setup w)
             = trace w ++ Discover (IssuerURL (self w)) :: rest).
Proof.
  split; [apply Setup_invalid|].
  intros H1 H2 H3. unfold Setup. run. rewrite Setup_valid_guard by done.
  destruct (oidc_NewProvider _ _) as [p|err|]; run.
  - eexists. by rewrite <- app_assoc.
  - by exists [].
  - by exists [].
Qed.


(** C7.  End to end: with a valid configuration, an issuer that is
    discovered, a token endpoint that answers with an identity token, a
    verifier that accepts it and claims that decode to the email
    "u@x.com" and the groups ["/org/teamA"; "org/teamB/"], [Setup]
    succeeds, [ExchangeCode] returns the identity token, and [GetUser] on
    it returns the user "u@x.com" whose groups are exactly [org],
    [teamA] and [teamB], each once. *)
Theorem login_end_to_end `{Collaborators} (w : World)
    (redirectURI code unused rawIDToken : string) (p : oidc.Provider)
    (response : oauth2.Token) (idToken : oidc.IDToken) :
  IssuerURL (self w) ≠ "" → ClientID (self w) ≠ "" → ClientSecret (self w) ≠ "" →
  oidc_NewProvider (Some Background) (IssuerURL (self w)) = Value p →
  exchangeAuthorizationCode redirectURI code = Value response →
  oauth2.Extra response "id_token" = any_string rawIDToken →
  oidc_Verify
    (Some (oidc.Verifier p {| oidc.ClientID := ClientID (self w) |}))
    (Some Background) rawIDToken = Value idToken →
  oidc_Claims idToken
    = Value {| Email := "u@x.com"; Groups := ["/org/teamA"; "org/teamB/"] |} →
  ∃ w1 w2 w3 u,
    Setup w = Normal None w1
    ∧ ExchangeCode redirectURI code w1 = Normal (rawIDToken, None) w2
    ∧ GetUser rawIDToken unused w2 = Normal (Some u, None) w3
    ∧ User_User u = "u@x.com"
    ∧ NoDup (User_Groups u)
    ∧ list_to_set (User_Groups u) = ({["org"; "teamA"; "teamB"]} : gset string).
Proof.
  intros H1 H2 H3 Hp Hresp Hextra HV HC.
  pose (w1 := {| self := configured (self w) p;
                 trace := trace w ++ [Discover (IssuerURL (self w));
                            Output (String.append "ByMarek: "
                                     (Sprintln ["----------> OIDC.Setup"]))];
                 orders := orders w |}).
  pose (w2 := after [Exchange redirectURI code;
                     Output (String.append "ByMarek: "
                              (Sprintln ["----------> OIDC.ExchangeCode, rawIDToken:";
                                         rawIDToken]))] w1).
  destruct (GetUser_success w2 rawIDToken unused idToken _
              {| log.prefix := "ByMarek: "; log.flag := 67;
                 log.out := log.Stdout |} HV HC eq_refl)
    as (l & w3 & Hrun & Hnd & Hset & _).
  exists w1, w2, w3, {| User_User := "u@x.com"; User_Groups := l |}.
  split; [by apply Setup_success|].
  split; [by apply (ExchangeCode_success w1 (self w) p _ _ _ response)|].
  split; [exact Hrun|]. simpl. split; [done|]. split; [done|].
  rewrite Hset. by vm_compute.
Qed.

(** C8.  After a successful [Setup], [GetLoginURL] returns the
    authorization URL the OAuth2 client builds from the configured client
    ID, the given redirect URI, the three scopes and the given state, and
    leaves the world as it was: adapter unchanged, nothing done.  Two
    calls in a row with the same arguments return the same URL. *)
Theorem GetLoginURL_pure `{Collaborators} (w0 w : World)
    (redirectURI state : string) :
  Setup w0 = Normal None w →
  ∃ url,
    GetLoginURL redirectURI state w = Normal url w
    ∧ (u1 ← GetLoginURL redirectURI state;
       u2 ← GetLoginURL redirectURI state;
       mret (u1, u2)) w = Normal (url, url) w
    ∧ url = buildAuthorizationURL (ClientID (self w0)) redirectURI
              ["openid"; "profile"; "email"] state.
Proof.
  intros [p Hself]%Setup_inv. eexists.
  assert (GetLoginURL redirectURI state w
          = Normal (buildAuthorizationURL (ClientID (self w0)) redirectURI
                      ["openid"; "profile"; "email"] state) w) as Hrun.
  { unfold GetLoginURL, OAuthGetLoginURL. run. by rewrite Hself. }
  split; [exact Hrun|]. split; [|done].
  unfold mbind, M_bind. by rewrite Hrun, Hrun.
Qed.

(* ================================================================== *)
(** * The properties at work on the test double *)

(** C1 on the token [jwt-t], whose groups are ["/teamA/sub"; "teamA"]. *)
Lemma GetUser_group_set_witness :
  ∃ u w',
    @GetUser stub_env "jwt-t" "" (start ready [[1]]) = Normal (Some u, None) w'
    ∧ User_User u = "t@x.com"
    ∧ list_to_set (User_Groups u) = ({["teamA"; "sub"]} : gset string).
Proof.
  destruct (@GetUser_group_set stub_env (start ready [[1]]) "jwt-t" ""
              (stub_idToken ready_verifier "jwt-t") "t@x.com"
              ["/teamA/sub"; "teamA"] ready_logger
              eq_refl eq_refl eq_refl)
    as (u & w' & Hrun & Hmail & _ & _ & _ & Hset).
  exists u, w'. split; [exact Hrun|]. split; [exact Hmail|]. exact (Hset eq_refl).
Defined.

(** C2 on a list and a reordering of it with a repeated entry. *)
Lemma group_flattening_invariant_witness :
  ∃ l1 l2 w1' w2',
    GetUser_groups ["/a"; "a/b"] (start ready [[0]]) = Normal l1 w1'
    ∧ GetUser_groups ["a/b"; "/a"; "a/b"] (start ready [[1; 0]]) = Normal l2 w2'
    ∧ l1 ≡ₚ l2.
Proof.
  destruct (group_flattening_invariant (start ready [[0]]) (start ready [[1; 0]])
              ["/a"; "a/b"] ["a/b"; "/a"; "a/b"] ready_logger ready_logger
              eq_refl eq_refl)
    as (l1 & l2 & _ & _ & _ & _ & w1' & w2' & _ & _ & _ & _ & H1 & H2 & _ & Hperm & _).
  - intros g. rewrite !elem_of_cons, elem_of_nil. tauto.
  - by exists l1, l2, w1', w2'.
Defined.


(** C4 on a token the verifier does not know. *)
Lemma GetUser_verification_failure_witness :
  @GetUser stub_env "forged" "" (start ready [])
  = Normal (None, Some (oidc_failure "failed to verify signature"))
      (after [Verify "forged"] (start ready [])).
Proof.
  apply (@GetUser_verification_failure stub_env (start ready []) "forged" "").
  reflexivity.
Defined.

(** C5 with the issuer URL and the client secret missing, and with all
    three set. *)
Lemma Setup_validation_witness :
  @Setup stub_env (start (unconfigured "" "gateway" "") [])
  = Normal (Some (errors.New
      "providers.oidc.issuer-url, providers.oidc.client-id, providers.oidc.client-secret must be set"))
      (start (unconfigured "" "gateway" "") [])
  ∧ ∃ rest,
      trace_of (@Setup stub_env
                  (start (unconfigured "https://idp.example" "gateway" "s3cret") []))
      = Discover "https://idp.example" :: rest.
Proof.
  split.
  - apply (proj1 (@Setup_validation stub_env
                    (start (unconfigured "" "gateway" "") []))).
    left. reflexivity.
  - apply (proj2 (@Setup_validation stub_env
                    (start (unconfigured "https://idp.example" "gateway" "s3cret") [])));
      simpl; discriminate.
Defined.


(** C7 on the test double, whose token endpoint answers with [jwt-u]. *)
Lemma login_end_to_end_witness :
  ∃ w1 w2 w3 u,
    @Setup stub_env
      (start (unconfigured "https://idp.example" "gateway" "s3cret") [[2; 0]])
    = Normal None w1
    ∧ @ExchangeCode stub_env "https://app/cb" "code" w1 = Normal ("jwt-u", None) w2
    ∧ @GetUser stub_env "jwt-u" "" w2 = Normal (Some u, None) w3
    ∧ User_User u = "u@x.com"
    ∧ NoDup (User_Groups u)
    ∧ list_to_set (User_Groups u) = ({["org"; "teamA"; "teamB"]} : gset string).
Proof.
  apply (@login_end_to_end stub_env
           (start (unconfigured "https://idp.example" "gateway" "s3cret") [[2; 0]])
           "https://app/cb" "code" "" "jwt-u" stub_issuer
           (stub_response [("id_token", any_string "jwt-u")])
           (stub_idToken ready_verifier "jwt-u"));
    first [reflexivity | simpl; discriminate].
Defined.

(** C8 after [Setup] on the test double. *)
Lemma GetLoginURL_pure_witness :
  ∃ url,
    @GetLoginURL stub_env "https://app/cb" "csrf" setup_done = Normal url setup_done
    ∧ (u1 ← @GetLoginURL stub_env "https://app/cb" "csrf";
       u2 ← @GetLoginURL stub_env "https://app/cb" "csrf";
       mret (u1, u2)) setup_done = Normal (url, url) setup_done
    ∧ url = @buildAuthorizationURL stub_env "gateway" "https://app/cb"
              ["openid"; "profile"; "email"] "csrf".
Proof.
  apply (@GetLoginURL_pure stub_env
           (start (unconfigured "https://idp.example" "gateway" "s3cret") [])
           setup_done "https://app/cb" "csrf").
  reflexivity.
Defined.

(** C10 on the token [jwt-t], and on the token [jwt-s], whose raw groups
    are made of slashes. *)
Lemma GetUser_groups_well_formed_witness :
  (∀ u w', @GetUser stub_env "jwt-t" "" (start ready [[1]]) = Normal (Some u, None) w' →
     NoDup (User_Groups u)
     ∧ Forall (λ g, g ≠ "" ∧ str.ContainsByte g "/" = false) (User_Groups u))
  ∧ ∃ w', @GetUser stub_env "jwt-s" "" (start ready [])
          = Normal (Some {| User_User := "s@x.com"; User_Groups := [] |}, None) w'.
Proof.
  split.
  - apply (proj1 (@GetUser_groups_well_formed stub_env (start ready [[1]]) "jwt-t" "")).
  - apply (proj2 (@GetUser_groups_well_formed stub_env (start ready []) "jwt-s" "")
             (stub_idToken ready_verifier "jwt-s")
             {| Email := "s@x.com"; Groups := ["/"; ""; "///"] |} ready_logger);
      reflexivity.
Defined.

(* ================================================================== *)
(** * Further properties: the adapter is only read by a request *)

Lemma later_refl (w : World) : later w w.
Proof. by split. Qed.

Lemma later_trans (w1 w2 w3 : World) : later w1 w2 → later w2 w3 → later w1 w3.
Proof.
  intros [Hs1 Ht1] [Hs2 Ht2]. split; [congruence|]. by etrans.
Qed.

Lemma later_after (evs : list event) (w : World) : later w (after evs w).
Proof. split; [done|]. by apply prefix_app_r. Qed.

Lemma bind_later {A B} (m : M A) (f : A → M B) (w : World) :
  later w (world_of (m w)) →
  (∀ a w', later w' (world_of (f a w'))) →
  later w (world_of ((m ≫= f) w)).
Proof.
  unfold mbind, M_bind. destruct (m w) as [a w'|r w']; simpl; [|done].
  intros H1 H2. eapply later_trans; [exact H1|apply H2].
Qed.

Lemma foldM_later {A B} (body : B → A → M B) :
  (∀ acc x w, later w (world_of (body acc x w))) →
  ∀ l acc w, later w (world_of (foldM body acc l w)).
Proof.
  intros Hbody l. induction l as [|x l IH]; intros acc w; simpl.
  - apply later_refl.
  - apply bind_later; [apply Hbody|]. intros acc' w'. apply IH.
Qed.

Lemma MyLog_Println_later (operands : list string) (w : World) :
  later w (world_of (MyLog_Println operands w)).
Proof.
  destruct (MyLog (self w)) as [lg|] eqn:Hlg.
  - rewrite (MyLog_Println_run lg) by done. apply later_after.
  - unfold MyLog_Println. run. rewrite Hlg. apply later_refl.
Qed.

Lemma GetUser_groups_later (rawGroups : list string) (w : World) :
  later w (world_of (GetUser_groups rawGroups w)).
Proof.
  unfold GetUser_groups. apply bind_later.
  - apply foldM_later. intros acc groupFull w1.
    apply foldM_later. intros acc' group w2.
    destruct (bool_decide (group ≠ "")).
    + apply bind_later; [apply MyLog_Println_later|].
      intros _ w3. apply later_refl.
    + apply later_refl.
  - intros groupMap w1. rewrite mapKeys_run. by split.
Qed.

(** X1.  [GetUser] only reads the adapter: however the call ends, with a
    user, with an error or in a panic, the [OIDC] structure is what it
    was before the call, and the events before the call are followed by
    those of the call. *)
Theorem GetUser_reads_only `{Collaborators} (w : World) (token unused : string) :
  later w (world_of (GetUser token unused w)).
Proof.
  unfold GetUser.
  apply bind_later; [apply later_refl|]. intros o w1.
  apply bind_later; [apply (later_after [Verify token])|]. intros _ w2.
  destruct (oidc_Verify _ _ _) as [idToken|err|]; [|apply later_refl..].
  apply bind_later; [apply (later_after [DecodeClaims idToken])|]. intros _ w3.
  destruct (oidc_Claims idToken) as [user|err|]; [|apply later_refl..].
  apply bind_later; [apply MyLog_Println_later|]. intros _ w4.
  apply bind_later; [apply GetUser_groups_later|]. intros l w5.
  apply later_refl.
Qed.

(** X2.  When the token verifies but its claims do not decode into the
    email and groups structure, [GetUser] returns that error and a nil
    user, after the calls of the verifier and of the decoder and nothing
    else: no line printed, no map walked. *)
Theorem GetUser_claims_failure `{Collaborators} (w : World)
    (token unused : string) (idToken : oidc.IDToken) (err : error) :
  oidc_Verify (verifier (self w)) (ctx (OAuthProvider_ (self w))) token
    = Value idToken →
  oidc_Claims idToken = Failure err →
  GetUser token unused w
  = Normal (None, Some err) (after [Verify token; DecodeClaims idToken] w).
Proof.
  intros HV HC. unfold GetUser. run. rewrite HV. run. rewrite HC.
  unfold after. simpl. by rewrite <- app_assoc.
Qed.

(** X3.  A call of [GetUser] that returns gives either a user and a nil
    error, or a nil user and an error: never both, never neither. *)
Theorem GetUser_user_xor_error `{Collaborators} (w w' : World)
    (token unused : string) (u : option User) (e : option error) :
  GetUser token unused w = Normal (u, e) w' →
  (is_Some u ∧ e = None) ∨ (u = None ∧ is_Some e).
Proof.
  destruct (oidc_Verify (verifier (self w)) (ctx (OAuthProvider_ (self w))) token)
    as [idToken|err|] eqn:HV.
  - destruct (oidc_Claims idToken) as [user|err|] eqn:HC.
    + destruct (MyLog (self w)) as [lg|] eqn:Hlg.
      * destruct (GetUser_success w token unused idToken user lg HV HC Hlg)
          as (l & w'' & Hrun & _).
        rewrite Hrun. intros [= <- <- _]. left. by split; [eexists|].
      * unfold GetUser. run. rewrite HV. run. rewrite HC. run.
        unfold MyLog_Println. run. by rewrite Hlg.
    + unfold GetUser. run. rewrite HV. run. rewrite HC.
      intros [= <- <- _]. right. by split; [|eexists].
    + unfold GetUser. run. rewrite HV. run. by rewrite HC.
  - unfold GetUser. run. rewrite HV. run.
    intros [= <- <- _]. right. by split; [|eexists].
  - unfold GetUser. run. by rewrite HV.
Qed.

(** X4.  [GetUser] needs the logger that [Setup] installs: on a token
    that verifies and decodes, with the field [MyLog] nil, the call
    panics at its first print, after verification and decoding. *)
Theorem GetUser_nil_logger `{Collaborators} (w : World) (token unused : string)
    (idToken : oidc.IDToken) (user : userClaims) :
  oidc_Verify (verifier (self w)) (ctx (OAuthProvider_ (self w))) token
    = Value idToken →
  oidc_Claims idToken = Value user →
  MyLog (self w) = None →
  GetUser token unused w
  = Panic "nil pointer dereference: Logger"
      (after [Verify token; DecodeClaims idToken] w).
Proof.
  intros HV HC Hlg. unfold GetUser. run. rewrite HV. run. rewrite HC. run.
  unfold MyLog_Println. run. rewrite Hlg. simpl.
  unfold after. simpl. by rewrite <- app_assoc.
Qed.


(* ================================================================== *)
(** * Further properties: Setup *)

(** X6.  When the discovery of the issuer fails, [Setup] returns the
    library's error after having assigned two fields: the context, now
    the background context, and the provider, now nil.  The OAuth2
    configuration, the verifier and the logger are what they were, and
    nothing is printed. *)
Theorem Setup_discovery_failure `{Collaborators} (w : World) (err : error) :
  IssuerURL (self w) ≠ "" → ClientID (self w) ≠ "" → ClientSecret (self w) ≠ "" →
  oidc_NewProvider (Some Background) (IssuerURL (self w)) = Failure err →
  Setup w
  = Normal (Some err)
      {| self :=
           {| IssuerURL := IssuerURL (self w); ClientID := ClientID (self w);
              ClientSecret := ClientSecret (self w);
              OAuthProvider_ :=
                {| Config := Config (OAuthProvider_ (self w));
                   ctx := Some Background |};
              provider := None; verifier := verifier (self w);
              MyLog := MyLog (self w) |};
         trace := trace w ++ [Discover (IssuerURL (self w))];
         orders := orders w |}.
Proof.
  intros H1 H2 H3 Hp. unfold Setup. run.
  rewrite Setup_valid_guard by done. by rewrite Hp.
Qed.

(** What a run of [Setup] that returns nil has gone through. *)
Lemma Setup_nil_cases `{Collaborators} (w w' : World) :
  Setup w = Normal None w' →
  IssuerURL (self w) ≠ "" ∧ ClientID (self w) ≠ "" ∧ ClientSecret (self w) ≠ ""
  ∧ ∃ p,
      oidc_NewProvider (Some Background) (IssuerURL (self w)) = Value p
      ∧ w' = {| self := configured (self w) p;
                trace := trace w ++ [Discover (IssuerURL (self w));
                                     Output (String.append "ByMarek: "
                                       (Sprintln ["----------> OIDC.Setup"]))];
                orders := orders w |}.
Proof.
  intros Hrun.
  destruct (decide (IssuerURL (self w) = "")) as [E1|E1];
    [by rewrite Setup_invalid in Hrun by auto|].
  destruct (decide (ClientID (self w) = "")) as [E2|E2];
    [by rewrite Setup_invalid in Hrun by auto|].
  destruct (decide (ClientSecret (self w) = "")) as [E3|E3];
    [by rewrite Setup_invalid in Hrun by auto|].
  do 3 (split; [done|]).
  destruct (oidc_NewProvider (Some Background) (IssuerURL (self w)))
    as [p|err|] eqn:Hp.
  - exists p. split; [done|].
    rewrite (Setup_success w p) in Hrun by done. by injection Hrun.
  - revert Hrun. unfold Setup. run.
    rewrite Setup_valid_guard by done. by rewrite Hp.
  - revert Hrun. unfold Setup. run.
    rewrite Setup_valid_guard by done. by rewrite Hp.
Qed.

(** X7.  [Setup] returns nil only on a complete configuration whose
    issuer was discovered: then the three required fields are not empty,
    the discovery was asked for the configured issuer URL, and the
    adapter holds the OAuth2 configuration (client ID, client secret, the
    discovered endpoints, the scopes openid, profile and email), the
    verifier bound to the client ID and the logger to standard output;
    one discovery and one printed line are all that happened. *)
Theorem Setup_nil_inv `{Collaborators} (w w' : World) :
  Setup w = Normal None w' →
  IssuerURL (self w) ≠ "" ∧ ClientID (self w) ≠ "" ∧ ClientSecret (self w) ≠ ""
  ∧ ∃ p,
      oidc_NewProvider (Some Background) (IssuerURL (self w)) = Value p
      ∧ w' = {| self := configured (self w) p;
                trace := trace w ++ [Discover (IssuerURL (self w));
                                     Output (String.append "ByMarek: "
                                       (Sprintln ["----------> OIDC.Setup"]))];
                orders := orders w |}.
Proof. apply Setup_nil_cases. Qed.

(** X8.  [Setup] never changes the three configured fields: however it
    ends, the issuer URL, the client ID and the client secret are those
    it was called with. *)
Theorem Setup_keeps_configuration `{Collaborators} (w : World) :
  IssuerURL (self (world_of (Setup w))) = IssuerURL (self w)
  ∧ ClientID (self (world_of (Setup w))) = ClientID (self w)
  ∧ ClientSecret (self (world_of (Setup w))) = ClientSecret (self w).
Proof.
  unfold Setup. run.
  destruct (bool_decide _ || bool_decide _ || bool_decide _); [done|].
  by destruct (oidc_NewProvider _ _).
Qed.

(** X9.  A successful [Setup] rebuilds all it derives from the three
    configured fields and the discovery alone: two adapters with the same
    issuer URL, client ID and client secret end in the same state,
    whatever provider, verifier, OAuth2 configuration, context and logger
    each held before.  In particular a second [Setup] on a configured
    adapter succeeds and changes nothing of it. *)
Theorem Setup_rebuilds `{Collaborators} (w1 w2 w1' : World) :
  IssuerURL (self w2) = IssuerURL (self w1) →
  ClientID (self w2) = ClientID (self w1) →
  ClientSecret (self w2) = ClientSecret (self w1) →
  Setup w1 = Normal None w1' →
  ∃ w2', Setup w2 = Normal None w2' ∧ self w2' = self w1'
         ∧ ∃ w1'', Setup w1' = Normal None w1'' ∧ self w1'' = self w1'.
Proof.
  intros EI EC ES Hrun.
  apply Setup_nil_cases in Hrun as (H1 & H2 & H3 & p & Hp & ->).
  eexists. split; [|split].
  - apply (Setup_success w2 p); by rewrite ?EI, ?EC, ?ES.
  - simpl. unfold configured. by rewrite EI, EC, ES.
  - eexists. split; [by apply (Setup_success _ p)|done].
Qed.

(* ================================================================== *)
(** * Further properties: ExchangeCode *)

Lemma append_assoc (s1 s2 s3 : string) :
  (s1 +:+ s2) +:+ s3 = s1 +:+ (s2 +:+ s3).
Proof.
  induction s1 as [|c s1 IH]; [done|].
  change (String c ((s1 +:+ s2) +:+ s3) = String c (s1 +:+ (s2 +:+ s3))).
  by rewrite IH.
Qed.

Lemma HasPrefix_app (s rest : string) : str.HasPrefix (s +:+ rest) s = true.
Proof.
  induction s as [|c s IH]; [by destruct rest|].
  change (String c s +:+ rest) with (String c (s +:+ rest)).
  simpl. by rewrite Ascii.eqb_refl, IH.
Qed.

Lemma Contains_HasPrefix (s sub : string) :
  str.HasPrefix s sub = true → str.Contains s sub = true.
Proof. destruct s; simpl; intros ->; done. Qed.

Lemma Contains_app_r (front s sub : string) :
  str.Contains s sub = true → str.Contains (front +:+ s) sub = true.
Proof.
  intros Hs. induction front as [|c front IH]; [done|].
  change (String c front +:+ s) with (String c (front +:+ s)).
  simpl. rewrite IH. by rewrite orb_true_r.
Qed.

(** A printed line contains its last operand. *)
Lemma Sprintln_contains (lg : log.Logger) (label operand : string) :
  str.Contains (log.prefix lg +:+ Sprintln [label; operand]) operand = true.
Proof.
  apply Contains_app_r. unfold Sprintln. simpl.
  rewrite append_assoc. apply Contains_app_r.
  change (String " " operand +:+ String "010" "")
    with (String " " (operand +:+ String "010" "")).
  change (String " " (operand +:+ String "010" ""))
    with (String " " "" +:+ (operand +:+ String "010" "")).
  apply Contains_app_r, Contains_HasPrefix, HasPrefix_app.
Qed.

(** X10.  When the code exchange fails, [ExchangeCode] passes the error
    of the exchange on as it is, with the empty string for a token, and
    does nothing more: nothing is printed. *)
Theorem ExchangeCode_exchange_error `{Collaborators} (w w1 : World)
    (redirectURI code : string) (token : option oauth2.Token) (err : error) :
  OAuthExchangeCode (OAuthProvider_ (self w)) redirectURI code w
    = Normal (token, Some err) w1 →
  ExchangeCode redirectURI code w = Normal ("", Some err) w1.
Proof. intros Hex. unfold ExchangeCode. run. by rewrite Hex. Qed.

(** X11.  When the token response carries a string under [id_token],
    [ExchangeCode] returns that string as it is, the empty string
    included, with a nil error, and prints one line with it. *)
Theorem ExchangeCode_returns_id_token `{Collaborators} (w w1 : World)
    (redirectURI code rawIDToken : string) (token : oauth2.Token)
    (lg : log.Logger) :
  OAuthExchangeCode (OAuthProvider_ (self w)) redirectURI code w
    = Normal (Some token, None) w1 →
  oauth2.Extra token "id_token" = any_string rawIDToken →
  MyLog (self w1) = Some lg →
  ExchangeCode redirectURI code w
  = Normal (rawIDToken, None)
      (after (printed lg ["----------> OIDC.ExchangeCode, rawIDToken:";
                          rawIDToken]) w1).
Proof.
  intros Hex Hextra Hlg. unfold ExchangeCode. run. rewrite Hex, Hextra. simpl.
  by rewrite (MyLog_Println_run lg).
Qed.

(** X12.  [ExchangeCode] writes the identity token to standard output:
    with the logger of [Setup], which writes there, a successful call
    adds exactly one line to the output, and that line contains the raw
    identity token. *)
Theorem ExchangeCode_prints_token `{Collaborators} (w w1 : World)
    (redirectURI code rawIDToken : string) (token : oauth2.Token)
    (lg : log.Logger) :
  OAuthExchangeCode (OAuthProvider_ (self w)) redirectURI code w
    = Normal (Some token, None) w1 →
  oauth2.Extra token "id_token" = any_string rawIDToken →
  MyLog (self w1) = Some lg →
  log.out lg = log.Stdout →
  ∃ line w',
    ExchangeCode redirectURI code w = Normal (rawIDToken, None) w'
    ∧ trace w' = trace w1 ++ [Output line]
    ∧ str.Contains line rawIDToken = true.
Proof.
  intros Hex Hextra Hlg Hout. unfold ExchangeCode. run.
  rewrite Hex, Hextra. simpl. rewrite (MyLog_Println_run lg) by done.
  unfold printed. rewrite Hout. eexists _, _. split; [done|]. split; [done|].
  apply Sprintln_contains.
Qed.

(** X13.  [ExchangeCode] needs the logger that [Setup] installs: on a
    response with a string [id_token], with the field [MyLog] nil, the
    call panics where it would print the token. *)
Theorem ExchangeCode_nil_logger `{Collaborators} (w w1 : World)
    (redirectURI code rawIDToken : string) (token : oauth2.Token) :
  OAuthExchangeCode (OAuthProvider_ (self w)) redirectURI code w
    = Normal (Some token, None) w1 →
  oauth2.Extra token "id_token" = any_string rawIDToken →
  MyLog (self w1) = None →
  ExchangeCode redirectURI code w = Panic "nil pointer dereference: Logger" w1.
Proof.
  intros Hex Hextra Hlg. unfold ExchangeCode. run. rewrite Hex, Hextra. simpl.
  unfold MyLog_Println. run. by rewrite Hlg.
Qed.

(** X14.  A token string that [ExchangeCode] returns with a nil error is
    the string the token response of the exchange carries under
    [id_token]: the call never returns anything else as a token. *)
Theorem ExchangeCode_token_origin `{Collaborators} (w w' : World)
    (redirectURI code rawIDToken : string) :
  ExchangeCode redirectURI code w = Normal (rawIDToken, None) w' →
  ∃ token w1,
    OAuthExchangeCode (OAuthProvider_ (self w)) redirectURI code w
      = Normal (Some token, None) w1
    ∧ oauth2.Extra token "id_token" = any_string rawIDToken.
Proof.
  unfold ExchangeCode. run.
  destruct (OAuthExchangeCode _ _ _ w) as [[token err] w1|r w1]; [|done].
  destruct err as [err|]; [done|]. destruct token as [token|]; [|done].
  destruct (oauth2.Extra token "id_token") as [|s| | | | |] eqn:E; simpl; try done.
  unfold MyLog_Println. run. destruct (MyLog (self w1)) as [lg|]; [|done].
  rewrite Println_run. intros [= <- _]. by exists token, w1.
Qed.

(** X15.  Whenever [ExchangeCode] returns an error, the token string it
    returns with it is empty. *)
Theorem ExchangeCode_error_empty_token `{Collaborators} (w w' : World)
    (redirectURI code s : string) (err : error) :
  ExchangeCode redirectURI code w = Normal (s, Some err) w' → s = "".
Proof.
  unfold ExchangeCode. run.
  destruct (OAuthExchangeCode _ _ _ w) as [[token e] w1|r w1]; [|done].
  destruct e as [e|]; [by intros [= <- _]|]. destruct token as [token|]; [|done].
  destruct (oauth2.Extra token "id_token") as [|s'| | | | |]; simpl;
    try by intros [= <- _].
  unfold MyLog_Println. run. destruct (MyLog (self w1)) as [lg|]; [|done].
  by rewrite Println_run.
Qed.

(* ================================================================== *)
(** * Further properties: mapKeys and the group flattening *)

(** X16.  [mapKeys] returns every key of the map exactly once and
    nothing else, as many elements as the map has entries (none for the
    empty map), whatever order the runtime walks the map in; it touches
    neither the adapter nor the output. *)
Theorem mapKeys_keys `{Countable K} {V} (m : gmap K V) (w : World) :
  ∃ l,
    mapKeys m w
    = Normal l {| self := self w; trace := trace w; orders := tl (orders w) |}
    ∧ NoDup l
    ∧ (∀ k, k ∈ l ↔ is_Some (m !! k))
    ∧ length l = size m.
Proof.
  rewrite mapKeys_run. eexists. split; [done|].
  destruct (visit_keys m (hd [] (orders w))) as [Hnd Hset].
  split; [done|]. split.
  - intros k. by rewrite <- elem_of_dom, <- Hset, elem_of_list_to_set.
  - rewrite length_fmap, (Permutation_length (visit_Permutation _ _)).
    apply length_map_to_list.
Qed.


Lemma spec_groups_app (raw1 raw2 : list string) :
  spec_groups (raw1 ++ raw2) = spec_groups raw1 ∪ spec_groups raw2.
Proof. unfold spec_groups. by rewrite fmap_app, union_list_app_L. Qed.

(** X18.  Flattening two lists of raw groups together gives the union of
    what flattening each gives: adding raw groups never removes a
    group. *)
Theorem GetUser_groups_app (w1 w2 w : World) (raw1 raw2 : list string)
    (lg1 lg2 lg : log.Logger) :
  MyLog (self w1) = Some lg1 →
  MyLog (self w2) = Some lg2 →
  MyLog (self w) = Some lg →
  ∃ l1 l2 l w1' w2' w',
    GetUser_groups raw1 w1 = Normal l1 w1'
    ∧ GetUser_groups raw2 w2 = Normal l2 w2'
    ∧ GetUser_groups (raw1 ++ raw2) w = Normal l w'
    ∧ (list_to_set l : gset string) = list_to_set l1 ∪ list_to_set l2.
Proof.
  intros Hlg1 Hlg2 Hlg.
  destruct (GetUser_groups_spec lg1 w1 raw1 Hlg1) as (l1 & w1' & Hrun1 & _ & Hset1 & _).
  destruct (GetUser_groups_spec lg2 w2 raw2 Hlg2) as (l2 & w2' & Hrun2 & _ & Hset2 & _).
  destruct (GetUser_groups_spec lg w (raw1 ++ raw2) Hlg) as (l & w' & Hrun & _ & Hset & _).
  exists l1, l2, l, w1', w2', w'. do 3 (split; [done|]).
  by rewrite Hset, Hset1, Hset2, spec_groups_app.
Qed.

(** X19.  A raw group that is not empty and holds no slash is kept as it
    is: it is one of the groups of the result. *)
Theorem GetUser_groups_keeps_plain (w : World) (rawGroups : list string)
    (raw : string) (lg : log.Logger) :
  MyLog (self w) = Some lg →
  raw ∈ rawGroups →
  raw ≠ "" →
  str.ContainsByte raw "/" = false →
  ∃ l w', GetUser_groups rawGroups w = Normal l w' ∧ raw ∈ l.
Proof.
  intros Hlg Hin Hne Hfree.
  destruct (GetUser_groups_spec lg w rawGroups Hlg) as (l & w' & Hrun & _ & Hset & _).
  exists l, w'. split; [done|].
  apply (elem_of_list_to_set (C := gset string)). rewrite Hset.
  apply elem_of_spec_groups. split; [done|]. exists raw. split; [done|].
  rewrite (Split_free _ _ Hfree). by left.
Qed.

Lemma fill_events (lg : log.Logger) (acc : gmap string bool * list event)
    (segments : list string) :
  (fill lg acc segments).2
  = acc.2 ++ (filter (λ seg, seg ≠ "") segments ≫= λ group,
                printed lg ["----------> OIDC.GetUser, group:"; group]).
Proof.
  revert acc. induction segments as [|seg segments IH]; intros acc.
  - simpl. by rewrite app_nil_r.
  - rewrite fill_cons, IH. case_bool_decide as Hseg; simpl.
    + rewrite filter_cons_True by done. by rewrite bind_cons, app_assoc.
    + by rewrite filter_cons_False by (by intros ?).
Qed.

Lemma fill_all_events (lg : log.Logger) (acc : gmap string bool * list event)
    (rawGroups : list string) :
  (fill_all lg acc rawGroups).2 = acc.2 ++ group_lines lg rawGroups.
Proof.
  revert acc. induction rawGroups as [|raw rawGroups IH]; intros acc.
  - simpl. by rewrite app_nil_r.
  - rewrite fill_all_cons, IH, fill_events. unfold group_lines.
    by rewrite bind_cons, app_assoc.
Qed.

(** X20.  The flattening prints one line for every segment that is not
    empty, in the order of the raw groups and of the segments in each,
    repeated segments included: the duplicates are dropped from the
    result, not from the output.  It prints nothing else, and walks one
    map. *)
Theorem GetUser_groups_prints (w : World) (rawGroups : list string)
    (lg : log.Logger) :
  MyLog (self w) = Some lg →
  ∃ l w',
    GetUser_groups rawGroups w = Normal l w'
    ∧ trace w' = trace w ++ group_lines lg rawGroups
    ∧ orders w' = tl (orders w).
Proof.
  intros Hlg. rewrite (GetUser_groups_run lg) by done.
  eexists _, _. split; [done|]. simpl. split; [|done].
  by rewrite fill_all_events.
Qed.

Lemma segment_count_length (rawGroups : list string) :
  length (rawGroups ≫= λ raw, str.Split raw "/") = segment_count rawGroups.
Proof.
  induction rawGroups as [|raw rawGroups IH]; [done|].
  rewrite bind_cons, length_app, IH, Split_length. done.
Qed.

(** X21.  The result has at most as many groups as the raw groups have
    segments: one more than the number of slashes, for each raw group. *)
Theorem GetUser_groups_bound (w : World) (rawGroups : list string)
    (lg : log.Logger) :
  MyLog (self w) = Some lg →
  ∃ l w',
    GetUser_groups rawGroups w = Normal l w'
    ∧ length l ≤ segment_count rawGroups.
Proof.
  intros Hlg.
  destruct (GetUser_groups_spec lg w rawGroups Hlg) as (l & w' & Hrun & Hnd & Hset & _).
  exists l, w'. split; [done|].
  rewrite <- segment_count_length. apply submseteq_length, NoDup_submseteq; [done|].
  intros g Hg. apply (elem_of_list_to_set (C := gset string)) in Hg.
  rewrite Hset in Hg. apply elem_of_spec_groups in Hg as [_ (raw & Hraw & Hg)].
  apply list_elem_of_bind. eauto.
Qed.

(** X22.  All that a successful [GetUser] does besides computing the
    user: one call of the verifier, one decoding of the claims, one
    printed line with the email and the raw groups as decoded, then the
    lines of the flattening; it walks one map. *)
Theorem GetUser_success_trace `{Collaborators} (w : World) (token unused : string)
    (idToken : oidc.IDToken) (user : userClaims) (lg : log.Logger) :
  oidc_Verify (verifier (self w)) (ctx (OAuthProvider_ (self w))) token
    = Value idToken →
  oidc_Claims idToken = Value user →
  MyLog (self w) = Some lg →
  ∃ u w',
    GetUser token unused w = Normal (Some u, None) w'
    ∧ trace w'
      = trace w ++ [Verify token; DecodeClaims idToken]
        ++ printed lg ["----------> OIDC.GetUser, user:"; fmt_v user]
        ++ group_lines lg (Groups user)
    ∧ orders w' = tl (orders w).
Proof.
  intros HV HC Hlg. unfold GetUser. run. rewrite HV. run. rewrite HC. run.
  rewrite (MyLog_Println_run lg) by done.
  rewrite (GetUser_groups_run lg) by done.
  eexists _, _. split; [done|]. simpl. split; [|done].
  rewrite fill_all_events. simpl. by rewrite <- !app_assoc.
Qed.

(* ================================================================== *)
(** * The further properties at work on the test double *)

(** X2 on a token that verifies but whose claims do not decode. *)
Lemma GetUser_claims_failure_witness :
  @GetUser stub_env_bad_claims "jwt-u" "" (start ready [])
  = Normal (None, Some (oidc_failure "cannot unmarshal claims"))
      (after [Verify "jwt-u"; DecodeClaims (stub_idToken ready_verifier "jwt-u")]
         (start ready [])).
Proof.
  apply (@GetUser_claims_failure stub_env_bad_claims (start ready []) "jwt-u" "");
    reflexivity.
Defined.

(** X3 on a token the verifier rejects. *)
Lemma GetUser_user_xor_error_witness :
  (is_Some (@None User) ∧ Some (oidc_failure "failed to verify signature") = None)
  ∨ (@None User = None ∧ is_Some (Some (oidc_failure "failed to verify signature"))).
Proof.
  apply (@GetUser_user_xor_error stub_env (start ready [])
           (after [Verify "forged"] (start ready [])) "forged" "").
  reflexivity.
Defined.

(** X4 on a configured adapter whose logger was set to nil. *)
Lemma GetUser_nil_logger_witness :
  @GetUser stub_env "jwt-u" "" (start ready_without_logger [])
  = Panic "nil pointer dereference: Logger"
      (after [Verify "jwt-u"; DecodeClaims (stub_idToken ready_verifier "jwt-u")]
         (start ready_without_logger [])).
Proof.
  apply (@GetUser_nil_logger stub_env (start ready_without_logger []) "jwt-u" ""
           (stub_idToken ready_verifier "jwt-u")
           {| Email := "u@x.com"; Groups := ["/org/teamA"; "org/teamB/"] |});
    reflexivity.
Defined.


(** X6 on an issuer that cannot be discovered. *)
Lemma Setup_discovery_failure_witness :
  @Setup stub_env (start (unconfigured "https://down.example" "gateway" "s3cret") [])
  = Normal (Some (oidc_failure "discovery failed"))
      {| self :=
           {| IssuerURL := "https://down.example"; ClientID := "gateway";
              ClientSecret := "s3cret";
              OAuthProvider_ := {| Config := None; ctx := Some Background |};
              provider := None; verifier := None; MyLog := None |};
         trace := [Discover "https://down.example"];
         orders := [] |}.
Proof.
  apply (@Setup_discovery_failure stub_env
           (start (unconfigured "https://down.example" "gateway" "s3cret") []));
    first [reflexivity | simpl; discriminate].
Defined.

(** X7 on the successful [Setup] of the test double. *)
Lemma Setup_nil_inv_witness :
  "https://idp.example" ≠ "" ∧ "gateway" ≠ "" ∧ "s3cret" ≠ ""
  ∧ ∃ p,
      @oidc_NewProvider stub_env (Some Background) "https://idp.example" = Value p
      ∧ setup_done
        = {| self := configured (unconfigured "https://idp.example" "gateway" "s3cret") p;
             trace := [] ++ [Discover "https://idp.example";
                             Output (String.append "ByMarek: "
                               (Sprintln ["----------> OIDC.Setup"]))];
             orders := [] |}.
Proof.
  apply (@Setup_nil_inv stub_env
           (start (unconfigured "https://idp.example" "gateway" "s3cret") [])
           setup_done).
  reflexivity.
Defined.

(** X9 on a fresh adapter and on one that is configured already. *)
Lemma Setup_rebuilds_witness :
  ∃ w2', @Setup stub_env (start ready [[1]]) = Normal None w2'
         ∧ self w2' = self setup_done
         ∧ ∃ w1'', @Setup stub_env setup_done = Normal None w1''
                   ∧ self w1'' = self setup_done.
Proof.
  apply (@Setup_rebuilds stub_env
           (start (unconfigured "https://idp.example" "gateway" "s3cret") [])
           (start ready [[1]]) setup_done); reflexivity.
Defined.

(** X10 on a token endpoint that refuses the code. *)
Lemma ExchangeCode_exchange_error_witness :
  @ExchangeCode stub_env_exchange_fails "https://app/cb" "used-code" (start ready [])
  = Normal ("", Some (oauth2_failure "invalid_grant"))
      (after [Exchange "https://app/cb" "used-code"] (start ready [])).
Proof.
  apply (@ExchangeCode_exchange_error stub_env_exchange_fails (start ready [])
           (after [Exchange "https://app/cb" "used-code"] (start ready []))
           "https://app/cb" "used-code" None).
  reflexivity.
Defined.

(** X11 on the token endpoint of the test double. *)
Lemma ExchangeCode_returns_id_token_witness :
  @ExchangeCode stub_env "https://app/cb" "code" (start ready [])
  = Normal ("jwt-u", None)
      (after (printed ready_logger
                ["----------> OIDC.ExchangeCode, rawIDToken:"; "jwt-u"])
         (after [Exchange "https://app/cb" "code"] (start ready []))).
Proof.
  apply (@ExchangeCode_returns_id_token stub_env (start ready [])
           (after [Exchange "https://app/cb" "code"] (start ready []))
           "https://app/cb" "code" "jwt-u"
           (stub_response [("id_token", any_string "jwt-u")]) ready_logger);
    reflexivity.
Defined.

(** X12 on the token endpoint of the test double. *)
Lemma ExchangeCode_prints_token_witness :
  ∃ line w',
    @ExchangeCode stub_env "https://app/cb" "code" (start ready [])
    = Normal ("jwt-u", None) w'
    ∧ trace w' = [Exchange "https://app/cb" "code"] ++ [Output line]
    ∧ str.Contains line "jwt-u" = true.
Proof.
  apply (@ExchangeCode_prints_token stub_env (start ready [])
           (after [Exchange "https://app/cb" "code"] (start ready []))
           "https://app/cb" "code" "jwt-u"
           (stub_response [("id_token", any_string "jwt-u")]) ready_logger);
    reflexivity.
Defined.

(** X13 on a configured adapter whose logger was set to nil. *)
Lemma ExchangeCode_nil_logger_witness :
  @ExchangeCode stub_env "https://app/cb" "code" (start ready_without_logger [])
  = Panic "nil pointer dereference: Logger"
      (after [Exchange "https://app/cb" "code"] (start ready_without_logger [])).
Proof.
  apply (@ExchangeCode_nil_logger stub_env (start ready_without_logger [])
           (after [Exchange "https://app/cb" "code"] (start ready_without_logger []))
           "https://app/cb" "code" "jwt-u"
           (stub_response [("id_token", any_string "jwt-u")]));
    reflexivity.
Defined.

(** X14 on the token endpoint of the test double. *)
Lemma ExchangeCode_token_origin_witness :
  ∃ token w1,
    @OAuthExchangeCode stub_env (OAuthProvider_ ready) "https://app/cb" "code"
      (start ready [])
    = Normal (Some token, None) w1
    ∧ oauth2.Extra token "id_token" = any_string "jwt-u".
Proof.
  apply (@ExchangeCode_token_origin stub_env (start ready [])
           (after (printed ready_logger
                     ["----------> OIDC.ExchangeCode, rawIDToken:"; "jwt-u"])
              (after [Exchange "https://app/cb" "code"] (start ready [])))
           "https://app/cb" "code" "jwt-u").
  reflexivity.
Defined.

(** X15 on a response whose [id_token] is a number. *)
Lemma ExchangeCode_error_empty_token_witness :
  @ExchangeCode stub_env_no_id_token "https://app/cb" "code" (start ready [])
  = Normal ("", Some (errors.New "Missing id_token"))
      (after [Exchange "https://app/cb" "code"] (start ready []))
  ∧ ("" : string) = "".
Proof.
  split; [reflexivity|].
  apply (@ExchangeCode_error_empty_token stub_env_no_id_token (start ready [])
           (after [Exchange "https://app/cb" "code"] (start ready []))
           "https://app/cb" "code" "" (errors.New "Missing id_token")).
  reflexivity.
Defined.


(** X18 on two lists that share the group [a]. *)
Lemma GetUser_groups_app_witness :
  ∃ l1 l2 l w1' w2' w',
    GetUser_groups ["/a/b"] (start ready []) = Normal l1 w1'
    ∧ GetUser_groups ["a/c"] (start ready [[1]]) = Normal l2 w2'
    ∧ GetUser_groups (["/a/b"] ++ ["a/c"]) (start ready [[2]]) = Normal l w'
    ∧ (list_to_set l : gset string) = list_to_set l1 ∪ list_to_set l2.
Proof.
  apply (GetUser_groups_app (start ready []) (start ready [[1]]) (start ready [[2]])
           ["/a/b"] ["a/c"] ready_logger ready_logger ready_logger);
    reflexivity.
Defined.

(** X19 on the plain group [admins] among path-like ones. *)
Lemma GetUser_groups_keeps_plain_witness :
  ∃ l w',
    GetUser_groups ["/org/teamA"; "admins"] (start ready [[1]]) = Normal l w'
    ∧ "admins" ∈ l.
Proof.
  apply (GetUser_groups_keeps_plain (start ready [[1]]) ["/org/teamA"; "admins"]
           "admins" ready_logger).
  - reflexivity.
  - right. left.
  - discriminate.
  - reflexivity.
Defined.

(** X20 on raw groups that repeat the segment [a]. *)
Lemma GetUser_groups_prints_witness :
  ∃ l w',
    GetUser_groups ["/a//b"; "a"] (start ready [[0]]) = Normal l w'
    ∧ trace w' = [] ++ group_lines ready_logger ["/a//b"; "a"]
    ∧ orders w' = tl [[0]].
Proof.
  apply (GetUser_groups_prints (start ready [[0]]) ["/a//b"; "a"] ready_logger).
  reflexivity.
Defined.

(** X21 on raw groups with four segments and two distinct groups. *)
Lemma GetUser_groups_bound_witness :
  ∃ l w',
    GetUser_groups ["/a/b"; "a"] (start ready []) = Normal l w'
    ∧ length l ≤ segment_count ["/a/b"; "a"].
Proof.
  apply (GetUser_groups_bound (start ready []) ["/a/b"; "a"] ready_logger).
  reflexivity.
Defined.

(** X22 on the token [jwt-t]. *)
Lemma GetUser_success_trace_witness :
  ∃ u w',
    @GetUser stub_env "jwt-t" "" (start ready [[1]]) = Normal (Some u, None) w'
    ∧ trace w'
      = [] ++ [Verify "jwt-t"; DecodeClaims (stub_idToken ready_verifier "jwt-t")]
        ++ printed ready_logger
             ["----------> OIDC.GetUser, user:";
              fmt_v {| Email := "t@x.com"; Groups := ["/teamA/sub"; "teamA"] |}]
        ++ group_lines ready_logger ["/teamA/sub"; "teamA"]
    ∧ orders w' = tl [[1]].
Proof.
  apply (@GetUser_success_trace stub_env (start ready [[1]]) "jwt-t" ""
           (stub_idToken ready_verifier "jwt-t")
           {| Email := "t@x.com"; Groups := ["/teamA/sub"; "teamA"] |}
           ready_logger); reflexivity.
Defined.
